(** * jobpool: a pool of job routines fed by a normal and a priority queue

    A shallow embedding of [jobpool.go].  The queue routine (the single
    goroutine that owns both queues) is embedded as functions in a small
    state, trace and panic monad; the pool as a whole (queue routine, job
    routines, callers of [QueueJob] and the caller of [Shutdown]) is a
    labelled transition system whose steps are the segments of the source
    between two blocking channel operations. *)

From Stdlib Require Import ZArith List String Bool Lia.
From stdpp Require Import base list.
Import ListNotations.

Local Open Scope Z_scope.

(** ** int32 and sync/atomic *)

Definition min_int32 : Z := - 2 ^ 31.
Definition max_int32 : Z := 2 ^ 31 - 1.

Definition int32 (z : Z) : Prop := min_int32 <= z <= max_int32.

(** Two's complement wrap-around of a 32-bit signed integer. *)
Definition wrap_int32 (z : Z) : Z := (z + 2 ^ 31) mod 2 ^ 32 - 2 ^ 31.

(** [atomic.AddInt32(&addr, delta)]: the new value of [*addr]. *)
Definition atomic_AddInt32 (addr delta : Z) : Z := wrap_int32 (addr + delta).

(** ** Jobs *)

(** What a call of [RunJob] does, as far as the pool can tell. *)
Inductive RunResult : Type :=
| Returns
| Panics (v : string)
| NeverReturns.

(** [type Jobber interface { RunJob(jobRoutine int) }].  A nil interface
    value behaves as a [Jobber] whose [RunJob] panics. *)
Record Jobber : Type := mkJobber {
  jobName : string;
  RunJob : Z -> RunResult
}.

Definition error : Type := option string.

(** [type queueJob struct]: the embedded [Jobber], the priority flag and the
    result channel, which is private to one call of [QueueJob] and named here
    by the number of that call. *)
Record queueJob : Type := mkQueueJob {
  jobber : Jobber;
  Priority : bool;
  ResultChannel : nat
}.

(** [type dequeueJob struct]: the result channel is private to one call of
    the [dequeueJob] method and named by the job routine that makes it. *)
Record dequeueJob : Type := mkDequeueJob {
  dequeueResultChannel : nat
}.

(** ** Channels *)

Record chan (A : Type) : Type := mkChan {
  buf : list A;
  cap : Z;
  closed : bool
}.
Arguments mkChan {A} _ _ _.
Arguments buf {A} _.
Arguments cap {A} _.
Arguments closed {A} _.

(** [make(chan A, n)] for [0 <= n]. *)
Definition make_chan {A : Type} (n : Z) : chan A :=
  {| buf := []; cap := n; closed := false |}.

Definition close_chan {A : Type} (c : chan A) : chan A :=
  {| buf := buf c; cap := cap c; closed := true |}.

Definition chan_push {A : Type} (v : A) (c : chan A) : chan A :=
  {| buf := buf c ++ [v]; cap := cap c; closed := closed c |}.

Definition chan_pop {A : Type} (c : chan A) : chan A :=
  {| buf := tail (buf c); cap := cap c; closed := closed c |}.

Definition chan_has_room {A : Type} (c : chan A) : bool :=
  Z.of_nat (length (buf c)) <? cap c.

(** ** The pool *)

Record JobPool : Type := mkJobPool {
  priorityJobQueue : list queueJob;
  normalJobQueue : list queueJob;
  queueChannel : chan queueJob;
  dequeueChannel : chan dequeueJob;
  shutdownQueueChannel : chan string;
  jobChannel : chan string;
  shutdownJobChannel : chan unit;
  shutdownWaitGroup : Z;
  queuedJobs : Z;
  activeRoutines : Z;
  queueCapacity : Z
}.

Definition set_priorityJobQueue (q : list queueJob) (p : JobPool) : JobPool :=
  mkJobPool q (normalJobQueue p) (queueChannel p) (dequeueChannel p)
    (shutdownQueueChannel p) (jobChannel p) (shutdownJobChannel p)
    (shutdownWaitGroup p) (queuedJobs p) (activeRoutines p) (queueCapacity p).

Definition set_normalJobQueue (q : list queueJob) (p : JobPool) : JobPool :=
  mkJobPool (priorityJobQueue p) q (queueChannel p) (dequeueChannel p)
    (shutdownQueueChannel p) (jobChannel p) (shutdownJobChannel p)
    (shutdownWaitGroup p) (queuedJobs p) (activeRoutines p) (queueCapacity p).

Definition set_queueChannel (c : chan queueJob) (p : JobPool) : JobPool :=
  mkJobPool (priorityJobQueue p) (normalJobQueue p) c (dequeueChannel p)
    (shutdownQueueChannel p) (jobChannel p) (shutdownJobChannel p)
    (shutdownWaitGroup p) (queuedJobs p) (activeRoutines p) (queueCapacity p).

Definition set_dequeueChannel (c : chan dequeueJob) (p : JobPool) : JobPool :=
  mkJobPool (priorityJobQueue p) (normalJobQueue p) (queueChannel p) c
    (shutdownQueueChannel p) (jobChannel p) (shutdownJobChannel p)
    (shutdownWaitGroup p) (queuedJobs p) (activeRoutines p) (queueCapacity p).

Definition set_shutdownQueueChannel (c : chan string) (p : JobPool) : JobPool :=
  mkJobPool (priorityJobQueue p) (normalJobQueue p) (queueChannel p)
    (dequeueChannel p) c (jobChannel p) (shutdownJobChannel p)
    (shutdownWaitGroup p) (queuedJobs p) (activeRoutines p) (queueCapacity p).

Definition set_jobChannel (c : chan string) (p : JobPool) : JobPool :=
  mkJobPool (priorityJobQueue p) (normalJobQueue p) (queueChannel p)
    (dequeueChannel p) (shutdownQueueChannel p) c (shutdownJobChannel p)
    (shutdownWaitGroup p) (queuedJobs p) (activeRoutines p) (queueCapacity p).

Definition set_shutdownJobChannel (c : chan unit) (p : JobPool) : JobPool :=
  mkJobPool (priorityJobQueue p) (normalJobQueue p) (queueChannel p)
    (dequeueChannel p) (shutdownQueueChannel p) (jobChannel p) c
    (shutdownWaitGroup p) (queuedJobs p) (activeRoutines p) (queueCapacity p).

Definition set_shutdownWaitGroup (n : Z) (p : JobPool) : JobPool :=
  mkJobPool (priorityJobQueue p) (normalJobQueue p) (queueChannel p)
    (dequeueChannel p) (shutdownQueueChannel p) (jobChannel p)
    (shutdownJobChannel p) n (queuedJobs p) (activeRoutines p) (queueCapacity p).

Definition set_queuedJobs (n : Z) (p : JobPool) : JobPool :=
  mkJobPool (priorityJobQueue p) (normalJobQueue p) (queueChannel p)
    (dequeueChannel p) (shutdownQueueChannel p) (jobChannel p)
    (shutdownJobChannel p) (shutdownWaitGroup p) n (activeRoutines p)
    (queueCapacity p).

Definition set_activeRoutines (n : Z) (p : JobPool) : JobPool :=
  mkJobPool (priorityJobQueue p) (normalJobQueue p) (queueChannel p)
    (dequeueChannel p) (shutdownQueueChannel p) (jobChannel p)
    (shutdownJobChannel p) (shutdownWaitGroup p) (queuedJobs p) n
    (queueCapacity p).

(** ** Events

    Every effect of the embedded code is logged, in program order. *)

Inductive counter : Type := c_queuedJobs | c_activeRoutines.

Inductive channel : Type :=
| ch_queueChannel
| ch_dequeueChannel
| ch_shutdownQueueChannel
| ch_jobChannel
| ch_shutdownJobChannel
| ch_queueResult (call : nat)
| ch_dequeueResult (jobRoutine : nat).

Inductive value : Type :=
| v_error (e : error)
| v_job (j : queueJob)
| v_string (s : string)
| v_request.

Inductive event : Type :=
| EvPushBack (priority : bool) (j : queueJob)
| EvRemove (priority : bool) (j : queueJob)
| EvAddInt32 (c : counter) (delta : Z)
| EvSend (c : channel) (v : value)
| EvRecv (c : channel)
| EvClose (c : channel)
| EvRunJob (j : Jobber) (jobRoutine : Z)
| EvRecovered (functionName : string) (r : string)
| EvWaitGroupDone
| EvWaitGroupWait.

(** ** The monad of one goroutine's straight-line code *)

Inductive outcome (A : Type) : Type :=
| Return (a : A)
| Panic (r : string)
| Parked.
Arguments Return {A} _.
Arguments Panic {A} _.
Arguments Parked {A}.

(** A computation reads and writes the pool and appends to the log.  It
    returns, panics, or parks the goroutine at a channel operation that
    cannot proceed. *)
Definition Go (A : Type) : Type := JobPool -> outcome A * JobPool * list event.

Definition ret {A : Type} (a : A) : Go A := fun p => (Return a, p, []).

Definition bind {A B : Type} (m : Go A) (f : A -> Go B) : Go B :=
  fun p =>
    match m p with
    | (Return a, p1, t1) =>
        match f a p1 with
        | (o, p2, t2) => (o, p2, t1 ++ t2)
        end
    | (Panic r, p1, t1) => (Panic r, p1, t1)
    | (Parked, p1, t1) => (Parked, p1, t1)
    end.

Declare Scope go_scope.
Delimit Scope go_scope with go.
Notation "x <- m ;; k" := (bind m (fun x => k))
  (at level 100, m at next level, right associativity) : go_scope.
Notation "m ;; k" := (bind m (fun _ => k))
  (at level 100, right associativity) : go_scope.
Local Open Scope go_scope.

Definition panic {A : Type} (r : string) : Go A := fun p => (Panic r, p, []).
Definition park {A : Type} : Go A := fun p => (Parked, p, []).
Definition emit (e : event) : Go unit := fun p => (Return tt, p, [e]).
Definition get {A : Type} (f : JobPool -> A) : Go A := fun p => (Return (f p), p, []).
Definition modify (f : JobPool -> JobPool) : Go unit := fun p => (Return tt, f p, []).

(** [defer d] followed by [body]: [d] runs when [body] returns and when it
    panics, and the panic goes on afterwards; a parked goroutine runs no
    deferred call. *)
Definition defer {A : Type} (d : Go unit) (body : Go A) : Go A :=
  fun p =>
    match body p with
    | (Return a, p1, t1) =>
        match d p1 with
        | (Return _, p2, t2) => (Return a, p2, t1 ++ t2)
        | (Panic r, p2, t2) => (Panic r, p2, t1 ++ t2)
        | (Parked, p2, t2) => (Parked, p2, t1 ++ t2)
        end
    | (Panic r, p1, t1) =>
        match d p1 with
        | (Return _, p2, t2) => (Panic r, p2, t1 ++ t2)
        | (Panic r', p2, t2) => (Panic r', p2, t1 ++ t2)
        | (Parked, p2, t2) => (Parked, p2, t1 ++ t2)
        end
    | (Parked, p1, t1) => (Parked, p1, t1)
    end.

(** [defer catchPanic(err, goRoutine, namespace, functionName)] around
    [body].  [results] are the named results of the function at the moment of
    the panic; [err] is [None] for a nil pointer and otherwise says how the
    error is stored into the results.  [recover] ends the panic, the stack
    trace goes to stdout, and the function returns its named results. *)
Definition catchPanic {A : Type} (results : A) (err : option (error -> A))
    (functionName : string) (body : Go A) : Go A :=
  fun p =>
    match body p with
    | (Panic r, p1, t1) =>
        (Return (match err with
                 | Some store => store (Some r)
                 | None => results
                 end), p1, t1 ++ [EvRecovered functionName r])
    | res => res
    end.

(** *** Effects *)

Definition AddInt32_queuedJobs (delta : Z) : Go Z :=
  fun p =>
    let n := atomic_AddInt32 (queuedJobs p) delta in
    (Return n, set_queuedJobs n p, [EvAddInt32 c_queuedJobs delta]).

Definition AddInt32_activeRoutines (delta : Z) : Go Z :=
  fun p =>
    let n := atomic_AddInt32 (activeRoutines p) delta in
    (Return n, set_activeRoutines n p, [EvAddInt32 c_activeRoutines delta]).

(** container/list: [PushBack], [Len], [Front] and [Remove].  An element is
    named by its value; [Front] of an empty list is nil, and [Remove(nil)]
    dereferences the nil element. *)
Definition priorityJobQueue_PushBack (j : queueJob) : Go unit :=
  fun p => (Return tt, set_priorityJobQueue (priorityJobQueue p ++ [j]) p,
            [EvPushBack true j]).

Definition normalJobQueue_PushBack (j : queueJob) : Go unit :=
  fun p => (Return tt, set_normalJobQueue (normalJobQueue p ++ [j]) p,
            [EvPushBack false j]).

Definition Front (l : list queueJob) : option queueJob := head l.

Definition nil_dereference : string :=
  "runtime error: invalid memory address or nil pointer dereference"%string.

Definition priorityJobQueue_Remove (e : option queueJob) : Go unit :=
  match e with
  | None => panic nil_dereference
  | Some j =>
      fun p => (Return tt, set_priorityJobQueue (tail (priorityJobQueue p)) p,
                [EvRemove true j])
  end.

Definition normalJobQueue_Remove (e : option queueJob) : Go unit :=
  match e with
  | None => panic nil_dereference
  | Some j =>
      fun p => (Return tt, set_normalJobQueue (tail (normalJobQueue p)) p,
                [EvRemove false j])
  end.

(** [nextJob.Value], cast back to a pointer to [queueJob]. *)
Definition Value (e : option queueJob) : Go queueJob :=
  match e with
  | None => panic nil_dereference
  | Some j => ret j
  end.

(** A send on a result channel: the requester is parked in its receive on
    that channel, so the value is handed over at once. *)
Definition send_result (c : channel) (v : value) : Go unit := emit (EvSend c v).

Definition send_on_closed : string := "send on closed channel"%string.

(** [this.jobChannel <- "Wake Up"] *)
Definition jobChannel_send (s : string) : Go unit :=
  fun p =>
    if closed (jobChannel p) then (Panic send_on_closed, p, [])
    else if chan_has_room (jobChannel p)
    then (Return tt, set_jobChannel (chan_push s (jobChannel p)) p,
          [EvSend ch_jobChannel (v_string s)])
    else (Parked, p, []).

(** ** The queue routine's two operations *)

Definition at_capacity : string := "Job Pool At Capacity"%string.

(** Lines 298-321. *)
Definition queueRoutineEnqueue (queueJob : queueJob) : Go unit :=
  catchPanic tt None "queueRoutineEnqueue" (
    n <- AddInt32_queuedJobs 0 ;;
    capacity <- get queueCapacity ;;
    if n =? capacity then
      send_result (ch_queueResult (ResultChannel queueJob))
                  (v_error (Some at_capacity))
    else
      (if Priority queueJob
       then priorityJobQueue_PushBack queueJob
       else normalJobQueue_PushBack queueJob) ;;
      AddInt32_queuedJobs 1 ;;
      send_result (ch_queueResult (ResultChannel queueJob)) (v_error None) ;;
      jobChannel_send "Wake Up").

(** Lines 324-345. *)
Definition queueRoutineDequeue (dequeueJob : dequeueJob) : Go unit :=
  catchPanic tt None "queueRoutineDequeue" (
    len <- get (fun p => length (priorityJobQueue p)) ;;
    nextJob <- (if (0 <? Z.of_nat len)
                then
                  nextJob <- get (fun p => Front (priorityJobQueue p)) ;;
                  priorityJobQueue_Remove nextJob ;;
                  ret nextJob
                else
                  nextJob <- get (fun p => Front (normalJobQueue p)) ;;
                  normalJobQueue_Remove nextJob ;;
                  ret nextJob) ;;
    AddInt32_queuedJobs (-1) ;;
    jobPool <- Value nextJob ;;
    send_result (ch_dequeueResult (dequeueResultChannel dequeueJob))
                (v_job jobPool)).

(** Lines 232-240. *)
Definition QueuedJobs (this : JobPool) : Z := atomic_AddInt32 (queuedJobs this) 0.
Definition ActiveRoutines (this : JobPool) : Z :=
  atomic_AddInt32 (activeRoutines this) 0.

(** ** Channel and wait-group operations of the other goroutines *)

(** A send on one of the unbuffered request channels.  It panics on a closed
    channel; otherwise the value is taken by the queue routine in its
    [select] (the transition system below lets the sender proceed only when
    the queue routine is there). *)
Definition queueChannel_send (j : queueJob) : Go unit :=
  fun p =>
    if closed (queueChannel p) then (Panic send_on_closed, p, [])
    else (Return tt, p, [EvSend ch_queueChannel (v_job j)]).

Definition dequeueChannel_send (d : dequeueJob) : Go unit :=
  fun p =>
    if closed (dequeueChannel p) then (Panic send_on_closed, p, [])
    else (Return tt, p, [EvSend ch_dequeueChannel v_request]).

Definition shutdownQueueChannel_send (s : string) : Go unit :=
  fun p =>
    if closed (shutdownQueueChannel p) then (Panic send_on_closed, p, [])
    else (Return tt, p, [EvSend ch_shutdownQueueChannel (v_string s)]).

(** A receive on a private result channel, or on [shutdownQueueChannel] by
    the caller of [Shutdown]: [answer] is what the queue routine sent there,
    [None] when it sent nothing, in which case the receiver stays parked
    (nobody else holds the channel, and only the receiver closes it). *)
Definition recv_answer {A : Type} (c : channel) (answer : option A) : Go A :=
  match answer with
  | Some a => (emit (EvRecv c) ;; ret a)
  | None => park
  end.

(** [<-this.jobChannel]: a buffered value if there is one, the zero value
    from a closed and drained channel, parked otherwise. *)
Definition jobChannel_recv : Go unit :=
  fun p =>
    match buf (jobChannel p) with
    | _ :: _ => (Return tt, set_jobChannel (chan_pop (jobChannel p)) p,
                 [EvRecv ch_jobChannel])
    | [] => if closed (jobChannel p)
            then (Return tt, p, [EvRecv ch_jobChannel])
            else (Parked, p, [])
    end.

Definition close_of_closed : string := "close of closed channel"%string.

Definition close_shutdownQueueChannel : Go unit :=
  fun p =>
    if closed (shutdownQueueChannel p) then (Panic close_of_closed, p, [])
    else (Return tt, set_shutdownQueueChannel (close_chan (shutdownQueueChannel p)) p,
          [EvClose ch_shutdownQueueChannel]).

Definition close_queueChannel : Go unit :=
  fun p =>
    if closed (queueChannel p) then (Panic close_of_closed, p, [])
    else (Return tt, set_queueChannel (close_chan (queueChannel p)) p,
          [EvClose ch_queueChannel]).

Definition close_dequeueChannel : Go unit :=
  fun p =>
    if closed (dequeueChannel p) then (Panic close_of_closed, p, [])
    else (Return tt, set_dequeueChannel (close_chan (dequeueChannel p)) p,
          [EvClose ch_dequeueChannel]).

Definition close_shutdownJobChannel : Go unit :=
  fun p =>
    if closed (shutdownJobChannel p) then (Panic close_of_closed, p, [])
    else (Return tt, set_shutdownJobChannel (close_chan (shutdownJobChannel p)) p,
          [EvClose ch_shutdownJobChannel]).

Definition close_jobChannel : Go unit :=
  fun p =>
    if closed (jobChannel p) then (Panic close_of_closed, p, [])
    else (Return tt, set_jobChannel (close_chan (jobChannel p)) p,
          [EvClose ch_jobChannel]).

Definition negative_WaitGroup : string := "sync: negative WaitGroup counter"%string.

(** [this.shutdownWaitGroup.Done()] *)
Definition shutdownWaitGroup_Done : Go unit :=
  fun p =>
    if shutdownWaitGroup p - 1 <? 0 then (Panic negative_WaitGroup, p, [])
    else (Return tt, set_shutdownWaitGroup (shutdownWaitGroup p - 1) p,
          [EvWaitGroupDone]).

(** [this.shutdownWaitGroup.Wait()]: returns once the counter is zero. *)
Definition shutdownWaitGroup_Wait : Go unit :=
  fun p =>
    if shutdownWaitGroup p =? 0 then (Return tt, p, [EvWaitGroupWait])
    else (Parked, p, []).

(** ** The functions of the callers and of the job routines

    Each function is given what the queue routine answers on the private
    result channel ([None]: nothing), and runs until it returns or parks. *)

(** Lines 212-229. *)
Definition QueueJob (call : nat) (jober : Jobber) (priority : bool)
    (answer : option error) : Go error :=
  catchPanic None (Some (fun e => e)) "QueueJob" (
    let jobPool := mkQueueJob jober priority call in
    defer (emit (EvClose (ch_queueResult (ResultChannel jobPool)))) (
      queueChannel_send jobPool ;;
      err <- recv_answer (ch_queueResult (ResultChannel jobPool)) answer ;;
      ret err)).

(** Lines 368-383, the method [dequeueJob]. *)
Definition JobPool_dequeueJob (jobRoutine : nat) (answer : option queueJob)
    : Go (option queueJob * error) :=
  catchPanic (None, None) (Some (fun e => (None, e))) "dequeueJob" (
    let requestJob := mkDequeueJob jobRoutine in
    defer (emit (EvClose (ch_dequeueResult (dequeueResultChannel requestJob)))) (
      dequeueChannel_send requestJob ;;
      job <- recv_answer (ch_dequeueResult (dequeueResultChannel requestJob)) answer ;;
      ret (Some job, None))).

(** The end of a call of [RunJob]. *)
Definition RunJob_result (r : RunResult) : Go unit :=
  match r with
  | Returns => ret tt
  | Panics v => panic v
  | NeverReturns => park
  end.

(** [queueJob.RunJob(jobRoutine)], on a possibly nil [queueJob]. *)
Definition call_RunJob (queueJob : option queueJob) (jobRoutine : nat) : Go unit :=
  match queueJob with
  | None => panic nil_dereference
  | Some j =>
      emit (EvRunJob (jobber j) (Z.of_nat jobRoutine)) ;;
      RunJob_result (RunJob (jobber j) (Z.of_nat jobRoutine))
  end.

(** The two deferred calls of [doJobSafely], lines 388-391, around what is
    left of its body. *)
Definition doJobSafely_deferred (body : Go unit) : Go unit :=
  catchPanic tt None "doJobSafely" (
    defer (AddInt32_activeRoutines (-1) ;; ret tt) body).

(** What [doJobSafely] does with the result of [dequeueJob], lines 399-405. *)
Definition doJobSafely_run (jobRoutine : nat) (r : option queueJob * error) : Go unit :=
  match snd r with
  | Some _ => ret tt
  | None => call_RunJob (fst r) jobRoutine
  end.

(** Lines 387-406. *)
Definition doJobSafely (jobRoutine : nat) (answer : option queueJob) : Go unit :=
  doJobSafely_deferred (
    AddInt32_activeRoutines 1 ;;
    r <- JobPool_dequeueJob jobRoutine answer ;;
    doJobSafely_run jobRoutine r).

(** Lines 184-207.  [ack] says whether the queue routine answers the request
    with its "Down". *)
Definition Shutdown (ack : option string) : Go error :=
  catchPanic None (Some (fun e => e)) "Shutdown" (
    shutdownQueueChannel_send "Shutdown" ;;
    recv_answer ch_shutdownQueueChannel ack ;;
    close_shutdownQueueChannel ;;
    close_queueChannel ;;
    close_dequeueChannel ;;
    close_shutdownJobChannel ;;
    shutdownWaitGroup_Wait ;;
    close_jobChannel ;;
    ret None).

(** Lines 151-164: the pool value built by [New].  [make] panics on a
    negative buffer size, and nothing recovers that panic. *)
Definition New_JobPool (numberOfRoutines queueCapacity : Z) : option JobPool :=
  if queueCapacity <? 0 then None
  else Some {|
    priorityJobQueue := [];
    normalJobQueue := [];
    queueChannel := make_chan 0;
    dequeueChannel := make_chan 0;
    shutdownQueueChannel := make_chan 0;
    jobChannel := make_chan queueCapacity;
    shutdownJobChannel := make_chan 0;
    shutdownWaitGroup := Z.of_nat (Z.to_nat numberOfRoutines);
    queuedJobs := 0;
    activeRoutines := 0;
    queueCapacity := queueCapacity |}.

(** ** The pool as a transition system

    One goroutine runs the queue routine, one each job routine, one each call
    of [QueueJob] and one the call of [Shutdown].  A goroutine is either
    parked at a blocking operation or has returned; a step lets one parked
    goroutine (two, for a rendezvous on an unbuffered channel) run up to its
    next blocking operation. *)

Inductive goroutine : Type :=
| g_queueRoutine
| g_jobRoutine (jobRoutine : nat)
| g_QueueJob (call : nat)
| g_Shutdown.

(** Where the queue routine is: in its [select] (line 277), parked in the
    send on [jobChannel] (line 320), parked in the send of "Down" (line 281),
    or returned (line 282). *)
Inductive queueRoutine_pc : Type :=
| q_select
| q_jobChannel_send
| q_Down_send
| q_returned.

(** Where a job routine is: in its [select] (line 351), parked in the send
    of [dequeueJob] (line 379) or in its receive (line 380), inside
    [RunJob] (line 405), or returned (line 357). *)
Inductive jobRoutine_pc : Type :=
| w_select
| w_dequeue_send
| w_dequeue_recv
| w_RunJob (j : queueJob)
| w_returned.

(** Where a call of [QueueJob] is: parked in the send (line 225) or in the
    receive (line 226), or returned. *)
Inductive QueueJob_pc : Type :=
| call_send (jober : Jobber) (priority : bool)
| call_recv
| call_returned (err : error).

(** Where the call of [Shutdown] is: not made yet, parked in the send (line
    190), in the receive (line 191) or in [Wait] (line 201), or returned. *)
Inductive Shutdown_pc : Type :=
| s_idle
| s_send
| s_recv
| s_Wait
| s_returned (err : error).

Record System : Type := mkSystem {
  this : JobPool;
  queue : queueRoutine_pc;
  jobs : list jobRoutine_pc;
  calls : list QueueJob_pc;
  shutdown : Shutdown_pc;
  log : list (goroutine * event)
}.

(** The events of one step are logged goroutine by goroutine: the log keeps
    the program order of every goroutine. *)
Definition tag (g : goroutine) (t : list event) : list (goroutine * event) :=
  map (pair g) t.

(** What the queue routine sent on a result channel. *)
Fixpoint sent_on_queueResult (call : nat) (t : list event) : option error :=
  match t with
  | [] => None
  | EvSend (ch_queueResult c) (v_error e) :: t' =>
      if Nat.eqb c call then Some e else sent_on_queueResult call t'
  | _ :: t' => sent_on_queueResult call t'
  end.

Fixpoint sent_on_dequeueResult (jobRoutine : nat) (t : list event) : option queueJob :=
  match t with
  | [] => None
  | EvSend (ch_dequeueResult c) (v_job j) :: t' =>
      if Nat.eqb c jobRoutine then Some j else sent_on_dequeueResult jobRoutine t'
  | _ :: t' => sent_on_dequeueResult jobRoutine t'
  end.

Inductive label : Type :=
| l_QueueJob (call : nat)
| l_queue_wake
| l_job_wake (jobRoutine : nat)
| l_job_shutdown (jobRoutine : nat)
| l_job_dequeue (jobRoutine : nat)
| l_job_done (jobRoutine : nat)
| l_Shutdown_call
| l_Shutdown_send
| l_Shutdown_recv
| l_Shutdown_Wait.

(** A call of [QueueJob] parked in its send: the send panics on the closed
    channel, or the queue routine takes the job in its [select], runs
    [queueRoutineEnqueue] and the caller receives the answer. *)
Definition step_QueueJob (call : nat) (s : System) : option System :=
  match calls s !! call with
  | Some (call_send jober priority) =>
      if closed (queueChannel (this s)) then
        match QueueJob call jober priority None (this s) with
        | (Return err, p, t) =>
            Some (mkSystem p (queue s) (jobs s)
                    (<[call := call_returned err]> (calls s)) (shutdown s)
                    (log s ++ tag (g_QueueJob call) t))
        | _ => None
        end
      else
        match queue s with
        | q_select =>
            match queueRoutineEnqueue (mkQueueJob jober priority call) (this s) with
            | (o, p1, t) =>
                match QueueJob call jober priority (sent_on_queueResult call t) p1 with
                | (oc, p2, tc) =>
                    Some (mkSystem p2
                            (match o with Parked => q_jobChannel_send | _ => q_select end)
                            (jobs s)
                            (<[call := match oc with
                                       | Return err => call_returned err
                                       | _ => call_recv
                                       end]> (calls s))
                            (shutdown s)
                            (log s ++ tag g_queueRoutine t ++ tag (g_QueueJob call) tc))
                end
            end
        | _ => None
        end
  | _ => None
  end.

(** The queue routine parked at line 320: the send goes through once the
    buffer has room (or panics on a closed channel, which [catchPanic]
    recovers), and the queue routine is back in its [select]. *)
Definition step_queue_wake (s : System) : option System :=
  match queue s with
  | q_jobChannel_send =>
      match catchPanic tt None "queueRoutineEnqueue" (jobChannel_send "Wake Up") (this s) with
      | (Return _, p, t) =>
          Some (mkSystem p q_select (jobs s) (calls s) (shutdown s)
                  (log s ++ tag g_queueRoutine t))
      | _ => None
      end
  | _ => None
  end.

(** A job routine in its [select] takes the [jobChannel] case: it enters
    [doJobSafely], counts itself active and parks in the send of
    [dequeueJob]. *)
Definition step_job_wake (i : nat) (s : System) : option System :=
  match jobs s !! i with
  | Some w_select =>
      match (jobChannel_recv ;; AddInt32_activeRoutines 1 ;; ret tt) (this s) with
      | (Return _, p, t) =>
          Some (mkSystem p (queue s) (<[i := w_dequeue_send]> (jobs s)) (calls s)
                  (shutdown s) (log s ++ tag (g_jobRoutine i) t))
      | _ => None
      end
  | _ => None
  end.

(** A job routine in its [select] takes the [shutdownJobChannel] case, which
    is ready once that channel is closed. *)
Definition step_job_shutdown (i : nat) (s : System) : option System :=
  match jobs s !! i with
  | Some w_select =>
      if closed (shutdownJobChannel (this s)) then
        match shutdownWaitGroup_Done (this s) with
        | (Return _, p, t) =>
            Some (mkSystem p (queue s) (<[i := w_returned]> (jobs s)) (calls s)
                    (shutdown s)
                    (log s ++ tag (g_jobRoutine i) (EvRecv ch_shutdownJobChannel :: t)))
        | _ => None
        end
      else None
  | _ => None
  end.

(** A job routine parked in the send of [dequeueJob].  On a closed channel
    the send panics and the rest of [doJobSafely] runs: the error is logged
    and the job routine is back in its [select].  Otherwise the queue
    routine takes the request in its [select] and runs
    [queueRoutineDequeue]; the job routine receives the job and calls
    [RunJob], or stays parked in its receive when nothing was sent. *)
Definition step_job_dequeue (i : nat) (s : System) : option System :=
  match jobs s !! i with
  | Some w_dequeue_send =>
      if closed (dequeueChannel (this s)) then
        match doJobSafely_deferred
                (r <- JobPool_dequeueJob i None ;; doJobSafely_run i r) (this s) with
        | (Return _, p, t) =>
            Some (mkSystem p (queue s) (<[i := w_select]> (jobs s)) (calls s)
                    (shutdown s) (log s ++ tag (g_jobRoutine i) t))
        | _ => None
        end
      else
        match queue s with
        | q_select =>
            match queueRoutineDequeue (mkDequeueJob i) (this s) with
            | (_, p1, t) =>
                match JobPool_dequeueJob i (sent_on_dequeueResult i t) p1 with
                | (Return (Some j, None), p2, tw) =>
                    Some (mkSystem p2 q_select (<[i := w_RunJob j]> (jobs s)) (calls s)
                            (shutdown s)
                            (log s ++ tag g_queueRoutine t
                               ++ tag (g_jobRoutine i)
                                    (tw ++ [EvRunJob (jobber j) (Z.of_nat i)])))
                | (Parked, p2, tw) =>
                    Some (mkSystem p2 q_select (<[i := w_dequeue_recv]> (jobs s)) (calls s)
                            (shutdown s)
                            (log s ++ tag g_queueRoutine t ++ tag (g_jobRoutine i) tw))
                | _ => None
                end
            end
        | _ => None
        end
  | _ => None
  end.

(** The call of [RunJob] ends, by a return or a panic, and the deferred
    calls of [doJobSafely] run; a job that never returns gives no step. *)
Definition step_job_done (i : nat) (s : System) : option System :=
  match jobs s !! i with
  | Some (w_RunJob j) =>
      match doJobSafely_deferred
              (RunJob_result (RunJob (jobber j) (Z.of_nat i))) (this s) with
      | (Return _, p, t) =>
          Some (mkSystem p (queue s) (<[i := w_select]> (jobs s)) (calls s)
                  (shutdown s) (log s ++ tag (g_jobRoutine i) t))
      | _ => None
      end
  | _ => None
  end.

Definition step_Shutdown_call (s : System) : option System :=
  match shutdown s with
  | s_idle => Some (mkSystem (this s) (queue s) (jobs s) (calls s) s_send (log s))
  | _ => None
  end.

(** Line 190: the send panics on a closed channel, and [Shutdown] returns
    the error; otherwise the queue routine takes the request in its
    [select] and parks in the send of "Down". *)
Definition step_Shutdown_send (s : System) : option System :=
  match shutdown s with
  | s_send =>
      if closed (shutdownQueueChannel (this s)) then
        match Shutdown None (this s) with
        | (Return err, p, t) =>
            Some (mkSystem p (queue s) (jobs s) (calls s) (s_returned err)
                    (log s ++ tag g_Shutdown t))
        | _ => None
        end
      else
        match queue s with
        | q_select =>
            Some (mkSystem (this s) q_Down_send (jobs s) (calls s) s_recv
                    (log s ++ tag g_Shutdown [EvSend ch_shutdownQueueChannel (v_string "Shutdown")]
                       ++ tag g_queueRoutine [EvRecv ch_shutdownQueueChannel]))
        | _ => None
        end
  | _ => None
  end.

(** Lines 191-201: "Down" is received, the queue routine returns, and the
    caller closes the four channels and parks in [Wait]. *)
Definition step_Shutdown_recv (s : System) : option System :=
  match shutdown s, queue s with
  | s_recv, q_Down_send =>
      match (recv_answer ch_shutdownQueueChannel (Some "Down"%string) ;;
             close_shutdownQueueChannel ;;
             close_queueChannel ;;
             close_dequeueChannel ;;
             close_shutdownJobChannel) (this s) with
      | (Return _, p, t) =>
          Some (mkSystem p q_returned (jobs s) (calls s) s_Wait
                  (log s ++ tag g_queueRoutine [EvSend ch_shutdownQueueChannel (v_string "Down")]
                     ++ tag g_Shutdown t))
      | (Panic r, p, t) =>
          Some (mkSystem p q_returned (jobs s) (calls s) (s_returned (Some r))
                  (log s ++ tag g_queueRoutine [EvSend ch_shutdownQueueChannel (v_string "Down")]
                     ++ tag g_Shutdown (t ++ [EvRecovered "Shutdown" r])))
      | _ => None
      end
  | _, _ => None
  end.

(** Lines 201-206: [Wait] returns once every job routine has called [Done]. *)
Definition step_Shutdown_Wait (s : System) : option System :=
  match shutdown s with
  | s_Wait =>
      match catchPanic None (Some (fun e => e)) "Shutdown"
              (shutdownWaitGroup_Wait ;; close_jobChannel ;; ret None) (this s) with
      | (Return err, p, t) =>
          Some (mkSystem p (queue s) (jobs s) (calls s) (s_returned err)
                  (log s ++ tag g_Shutdown t))
      | _ => None
      end
  | _ => None
  end.

Definition step (l : label) (s : System) : option System :=
  match l with
  | l_QueueJob call => step_QueueJob call s
  | l_queue_wake => step_queue_wake s
  | l_job_wake i => step_job_wake i s
  | l_job_shutdown i => step_job_shutdown i s
  | l_job_dequeue i => step_job_dequeue i s
  | l_job_done i => step_job_done i s
  | l_Shutdown_call => step_Shutdown_call s
  | l_Shutdown_send => step_Shutdown_send s
  | l_Shutdown_recv => step_Shutdown_recv s
  | l_Shutdown_Wait => step_Shutdown_Wait s
  end.

(** A schedule is run step by step; it fails at a step that is not enabled. *)
Fixpoint run (schedule : list label) (s : System) : option System :=
  match schedule with
  | [] => Some s
  | l :: rest =>
      match step l s with
      | Some s' => run rest s'
      | None => None
      end
  end.

(** Lines 151-179: [New] builds the pool and starts the job routines and the
    queue routine.  [submitted] are the calls of [QueueJob] that will be
    made on the pool, each by a goroutine of its own. *)
Definition New (numberOfRoutines queueCapacity : Z)
    (submitted : list (Jobber * bool)) : option System :=
  match New_JobPool numberOfRoutines queueCapacity with
  | Some jobPool =>
      Some {| this := jobPool;
              queue := q_select;
              jobs := replicate (Z.to_nat numberOfRoutines) w_select;
              calls := map (fun c => call_send (fst c) (snd c)) submitted;
              shutdown := s_idle;
              log := [] |}
  | None => None
  end.

Definition reachable (s0 s : System) : Prop :=
  exists schedule, run schedule s0 = Some s.


(** ** Sequences of queue operations *)

(** The queue routine serves the requests [js] one after the other, no
    dequeue in between; the answers it sent, in order, and the pool left. *)
Fixpoint enqueue_all (js : list queueJob) (p : JobPool) : list (option error) * JobPool :=
  match js with
  | [] => ([], p)
  | j :: rest =>
      match queueRoutineEnqueue j p with
      | (_, p1, t) =>
          match enqueue_all rest p1 with
          | (answers, p2) => (sent_on_queueResult (ResultChannel j) t :: answers, p2)
          end
      end
  end.

(** The queue routine serves [n] dequeue requests of job routine
    [jobRoutine] one after the other; the jobs it handed out, in order. *)
Fixpoint dequeue_all (n : nat) (jobRoutine : nat) (p : JobPool) : list (option queueJob) * JobPool :=
  match n with
  | O => ([], p)
  | S n' =>
      match queueRoutineDequeue (mkDequeueJob jobRoutine) p with
      | (_, p1, t) =>
          match dequeue_all n' jobRoutine p1 with
          | (handed, p2) => (sent_on_dequeueResult jobRoutine t :: handed, p2)
          end
      end
  end.

Definition accepted (answer : option error) : bool :=
  match answer with
  | Some None => true
  | _ => false
  end.

(** ** Reading logs *)




Definition is_RunJob (e : event) : bool :=
  match e with
  | EvRunJob _ _ => true
  | _ => false
  end.

(** Position of the first event of a kind. *)
Fixpoint position (f : event -> bool) (t : list event) : option nat :=
  match t with
  | [] => None
  | e :: t' => if f e then Some O else option_map S (position f t')
  end.


(** The jobs whose [RunJob] was called by job routine [i], in order. *)
Fixpoint started_by (i : nat) (l : list (goroutine * event)) : list Jobber :=
  match l with
  | [] => []
  | (g_jobRoutine k, EvRunJob j _) :: l' =>
      if Nat.eqb k i then j :: started_by i l' else started_by i l'
  | _ :: l' => started_by i l'
  end.

(** ** Invariants of the pool *)

(** The invariant of the two queues and the counter, as the queue routine
    keeps it between two operations. *)
Definition queue_invariant (p : JobPool) : Prop :=
  queuedJobs p = Z.of_nat (length (priorityJobQueue p) + length (normalJobQueue p))
  /\ 0 <= queuedJobs p <= queueCapacity p
  /\ queueCapacity p <= max_int32.

Definition awaiting_dequeue (w : jobRoutine_pc) : nat :=
  match w with
  | w_dequeue_send => 1
  | _ => 0
  end.

(** A job routine between the increment and the decrement of
    [activeRoutines]. *)
Definition counted_active (w : jobRoutine_pc) : nat :=
  match w with
  | w_dequeue_send | w_dequeue_recv | w_RunJob _ => 1
  | _ => 0
  end.

Definition executing (w : jobRoutine_pc) : nat :=
  match w with
  | w_RunJob _ => 1
  | _ => 0
  end.

Definition not_returned (w : jobRoutine_pc) : nat :=
  match w with
  | w_returned => 0
  | _ => 1
  end.

Definition channels_closed (p : JobPool) : bool * bool * bool * bool * bool :=
  (closed (shutdownQueueChannel p), closed (queueChannel p),
   closed (dequeueChannel p), closed (shutdownJobChannel p), closed (jobChannel p)).

Definition handshake (s : System) : Prop :=
  match shutdown s with
  | s_idle | s_send =>
      queue s = q_select /\ channels_closed (this s) = (false, false, false, false, false)
  | s_recv =>
      queue s = q_Down_send /\ channels_closed (this s) = (false, false, false, false, false)
  | s_Wait =>
      queue s = q_returned /\ channels_closed (this s) = (true, true, true, true, false)
  | s_returned None =>
      queue s = q_returned /\ channels_closed (this s) = (true, true, true, true, true)
      /\ sum_list_with not_returned (jobs s) = O
  | s_returned (Some _) => False
  end.

Record invariant (s : System) : Prop := mkInvariant {
  inv_queue : queue_invariant (this s);
  inv_cap : cap (jobChannel (this s)) = queueCapacity (this s);
  inv_wake :
    (Z.of_nat (length (buf (jobChannel (this s)))
               + sum_list_with awaiting_dequeue (jobs s)) <= queuedJobs (this s));
  inv_recv : forall i, jobs s !! i <> Some w_dequeue_recv;
  inv_calls : forall c, calls s !! c <> Some call_recv;
  inv_wg : shutdownWaitGroup (this s) = Z.of_nat (sum_list_with not_returned (jobs s));
  inv_active :
    activeRoutines (this s) = wrap_int32 (Z.of_nat (sum_list_with counted_active (jobs s)));
  inv_handshake : handshake s
}.

(** ** Termination *)

Definition terminates (j : Jobber) : Prop := forall i, RunJob j i <> NeverReturns.

Definition job_terminates (w : jobRoutine_pc) : Prop :=
  match w with
  | w_RunJob j => terminates (jobber j)
  | _ => True
  end.

Definition call_terminates (c : QueueJob_pc) : Prop :=
  match c with
  | call_send j _ => terminates j
  | _ => True
  end.

Definition jobs_terminate (s : System) : Prop :=
  Forall (fun j => terminates (jobber j)) (priorityJobQueue (this s))
  /\ Forall (fun j => terminates (jobber j)) (normalJobQueue (this s))
  /\ Forall job_terminates (jobs s)
  /\ Forall call_terminates (calls s).





Definition Shutdown_called (s : System) : Prop := shutdown s <> s_idle.

Definition Shutdown_returned (s : System) : Prop :=
  exists err, shutdown s = s_returned err.

Definition jobRoutines_returned (s : System) : Prop :=
  forall i w, jobs s !! i = Some w -> w = w_returned.

(** ** Examples *)

Definition job (name : string) : Jobber := mkJobber name (fun _ => Returns).
Definition failing_job : Jobber := mkJobber "failing" (fun _ => Panics "job failed").

Definition empty_pool : JobPool :=
  {| priorityJobQueue := [];
     normalJobQueue := [];
     queueChannel := make_chan 0;
     dequeueChannel := make_chan 0;
     shutdownQueueChannel := make_chan 0;
     jobChannel := make_chan 1;
     shutdownJobChannel := make_chan 0;
     shutdownWaitGroup := 1;
     queuedJobs := 0;
     activeRoutines := 0;
     queueCapacity := 1 |}.

(** One job routine, capacity one, one job queued and not yet taken. *)
Definition full_pool : JobPool :=
  {| priorityJobQueue := [];
     normalJobQueue := [mkQueueJob (job "A") false 0];
     queueChannel := make_chan 0;
     dequeueChannel := make_chan 0;
     shutdownQueueChannel := make_chan 0;
     jobChannel := mkChan ["Wake Up"%string] 1 false;
     shutdownJobChannel := make_chan 0;
     shutdownWaitGroup := 1;
     queuedJobs := 1;
     activeRoutines := 0;
     queueCapacity := 1 |}.

Definition system_of (p : JobPool) (ws : list jobRoutine_pc) (cs : list QueueJob_pc) : System :=
  mkSystem p q_select ws cs s_idle [].

(** The pool with [j] at the back of its queue. *)
Definition pushed (j : queueJob) (p : JobPool) : JobPool :=
  if Priority j
  then set_priorityJobQueue (priorityJobQueue p ++ [j]) p
  else set_normalJobQueue (normalJobQueue p ++ [j]) p.


(** ** The steps of a well-formed pool, spelled out

    [transition] lists the steps that [step] can take from a state that
    satisfies [invariant], each with its successor state written out
    ([step_transition] and [transition_step] below relate the two). *)

Inductive transition : label -> System -> System -> Prop :=
| t_QueueJob_closed (s : System) (c : nat) (jober : Jobber) (priority : bool) :
    calls s !! c = Some (call_send jober priority) ->
    closed (queueChannel (this s)) = true ->
    transition (l_QueueJob c) s
      (mkSystem (this s) (queue s) (jobs s)
         (<[c := call_returned (Some send_on_closed)]> (calls s)) (shutdown s)
         (log s ++ tag (g_QueueJob c)
            [EvClose (ch_queueResult c); EvRecovered "QueueJob" send_on_closed]))
| t_QueueJob_full (s : System) (c : nat) (jober : Jobber) (priority : bool) :
    calls s !! c = Some (call_send jober priority) ->
    closed (queueChannel (this s)) = false ->
    queue s = q_select ->
    queuedJobs (this s) = queueCapacity (this s) ->
    transition (l_QueueJob c) s
      (mkSystem (this s) q_select (jobs s)
         (<[c := call_returned (Some at_capacity)]> (calls s)) (shutdown s)
         (log s
            ++ tag g_queueRoutine
                 [EvAddInt32 c_queuedJobs 0;
                  EvSend (ch_queueResult c) (v_error (Some at_capacity))]
            ++ tag (g_QueueJob c)
                 [EvSend ch_queueChannel (v_job (mkQueueJob jober priority c));
                  EvRecv (ch_queueResult c);
                  EvClose (ch_queueResult c)]))
| t_QueueJob_accepted (s : System) (c : nat) (jober : Jobber) (priority : bool) :
    calls s !! c = Some (call_send jober priority) ->
    closed (queueChannel (this s)) = false ->
    queue s = q_select ->
    queuedJobs (this s) < queueCapacity (this s) ->
    transition (l_QueueJob c) s
      (mkSystem
         (set_jobChannel (chan_push "Wake Up"%string (jobChannel (this s)))
            (set_queuedJobs (queuedJobs (this s) + 1)
               (pushed (mkQueueJob jober priority c) (this s))))
         q_select (jobs s)
         (<[c := call_returned None]> (calls s)) (shutdown s)
         (log s
            ++ tag g_queueRoutine
                 [EvAddInt32 c_queuedJobs 0;
                  EvPushBack priority (mkQueueJob jober priority c);
                  EvAddInt32 c_queuedJobs 1;
                  EvSend (ch_queueResult c) (v_error None);
                  EvSend ch_jobChannel (v_string "Wake Up")]
            ++ tag (g_QueueJob c)
                 [EvSend ch_queueChannel (v_job (mkQueueJob jober priority c));
                  EvRecv (ch_queueResult c);
                  EvClose (ch_queueResult c)]))
| t_job_wake (s : System) (i : nat) (token : string) (tokens : list string) :
    jobs s !! i = Some w_select ->
    buf (jobChannel (this s)) = token :: tokens ->
    transition (l_job_wake i) s
      (mkSystem
         (set_activeRoutines (atomic_AddInt32 (activeRoutines (this s)) 1)
            (set_jobChannel (chan_pop (jobChannel (this s))) (this s)))
         (queue s) (<[i := w_dequeue_send]> (jobs s)) (calls s) (shutdown s)
         (log s ++ tag (g_jobRoutine i)
            [EvRecv ch_jobChannel; EvAddInt32 c_activeRoutines 1]))
| t_job_shutdown (s : System) (i : nat) :
    jobs s !! i = Some w_select ->
    closed (shutdownJobChannel (this s)) = true ->
    0 < shutdownWaitGroup (this s) ->
    transition (l_job_shutdown i) s
      (mkSystem (set_shutdownWaitGroup (shutdownWaitGroup (this s) - 1) (this s))
         (queue s) (<[i := w_returned]> (jobs s)) (calls s) (shutdown s)
         (log s ++ tag (g_jobRoutine i) [EvRecv ch_shutdownJobChannel; EvWaitGroupDone]))
| t_job_dequeue_closed (s : System) (i : nat) :
    jobs s !! i = Some w_dequeue_send ->
    closed (dequeueChannel (this s)) = true ->
    transition (l_job_dequeue i) s
      (mkSystem
         (set_activeRoutines (atomic_AddInt32 (activeRoutines (this s)) (-1)) (this s))
         (queue s) (<[i := w_select]> (jobs s)) (calls s) (shutdown s)
         (log s ++ tag (g_jobRoutine i)
            [EvClose (ch_dequeueResult i); EvRecovered "dequeueJob" send_on_closed;
             EvAddInt32 c_activeRoutines (-1)]))
| t_job_dequeue_priority (s : System) (i : nat) (j : queueJob) (rest : list queueJob) :
    jobs s !! i = Some w_dequeue_send ->
    closed (dequeueChannel (this s)) = false ->
    queue s = q_select ->
    priorityJobQueue (this s) = j :: rest ->
    transition (l_job_dequeue i) s
      (mkSystem
         (set_queuedJobs (atomic_AddInt32 (queuedJobs (this s)) (-1))
            (set_priorityJobQueue rest (this s)))
         q_select (<[i := w_RunJob j]> (jobs s)) (calls s) (shutdown s)
         (log s
            ++ tag g_queueRoutine
                 [EvRemove true j; EvAddInt32 c_queuedJobs (-1);
                  EvSend (ch_dequeueResult i) (v_job j)]
            ++ tag (g_jobRoutine i)
                 ([EvSend ch_dequeueChannel v_request; EvRecv (ch_dequeueResult i);
                   EvClose (ch_dequeueResult i)]
                  ++ [EvRunJob (jobber j) (Z.of_nat i)])))
| t_job_dequeue_normal (s : System) (i : nat) (j : queueJob) (rest : list queueJob) :
    jobs s !! i = Some w_dequeue_send ->
    closed (dequeueChannel (this s)) = false ->
    queue s = q_select ->
    priorityJobQueue (this s) = [] ->
    normalJobQueue (this s) = j :: rest ->
    transition (l_job_dequeue i) s
      (mkSystem
         (set_queuedJobs (atomic_AddInt32 (queuedJobs (this s)) (-1))
            (set_normalJobQueue rest (this s)))
         q_select (<[i := w_RunJob j]> (jobs s)) (calls s) (shutdown s)
         (log s
            ++ tag g_queueRoutine
                 [EvRemove false j; EvAddInt32 c_queuedJobs (-1);
                  EvSend (ch_dequeueResult i) (v_job j)]
            ++ tag (g_jobRoutine i)
                 ([EvSend ch_dequeueChannel v_request; EvRecv (ch_dequeueResult i);
                   EvClose (ch_dequeueResult i)]
                  ++ [EvRunJob (jobber j) (Z.of_nat i)])))
| t_job_done_returns (s : System) (i : nat) (j : queueJob) :
    jobs s !! i = Some (w_RunJob j) ->
    RunJob (jobber j) (Z.of_nat i) = Returns ->
    transition (l_job_done i) s
      (mkSystem
         (set_activeRoutines (atomic_AddInt32 (activeRoutines (this s)) (-1)) (this s))
         (queue s) (<[i := w_select]> (jobs s)) (calls s) (shutdown s)
         (log s ++ tag (g_jobRoutine i) [EvAddInt32 c_activeRoutines (-1)]))
| t_job_done_panics (s : System) (i : nat) (j : queueJob) (v : string) :
    jobs s !! i = Some (w_RunJob j) ->
    RunJob (jobber j) (Z.of_nat i) = Panics v ->
    transition (l_job_done i) s
      (mkSystem
         (set_activeRoutines (atomic_AddInt32 (activeRoutines (this s)) (-1)) (this s))
         (queue s) (<[i := w_select]> (jobs s)) (calls s) (shutdown s)
         (log s ++ tag (g_jobRoutine i)
            [EvAddInt32 c_activeRoutines (-1); EvRecovered "doJobSafely" v]))
| t_Shutdown_call (s : System) :
    shutdown s = s_idle ->
    transition l_Shutdown_call s
      (mkSystem (this s) (queue s) (jobs s) (calls s) s_send (log s))
| t_Shutdown_send (s : System) :
    shutdown s = s_send ->
    closed (shutdownQueueChannel (this s)) = false ->
    queue s = q_select ->
    transition l_Shutdown_send s
      (mkSystem (this s) q_Down_send (jobs s) (calls s) s_recv
         (log s
            ++ tag g_Shutdown [EvSend ch_shutdownQueueChannel (v_string "Shutdown")]
            ++ tag g_queueRoutine [EvRecv ch_shutdownQueueChannel]))
| t_Shutdown_recv (s : System) :
    shutdown s = s_recv ->
    queue s = q_Down_send ->
    channels_closed (this s) = (false, false, false, false, false) ->
    transition l_Shutdown_recv s
      (mkSystem
         (set_shutdownJobChannel (close_chan (shutdownJobChannel (this s)))
            (set_dequeueChannel (close_chan (dequeueChannel (this s)))
               (set_queueChannel (close_chan (queueChannel (this s)))
                  (set_shutdownQueueChannel
                     (close_chan (shutdownQueueChannel (this s))) (this s)))))
         q_returned (jobs s) (calls s) s_Wait
         (log s
            ++ tag g_queueRoutine [EvSend ch_shutdownQueueChannel (v_string "Down")]
            ++ tag g_Shutdown
                 [EvRecv ch_shutdownQueueChannel;
                  EvClose ch_shutdownQueueChannel;
                  EvClose ch_queueChannel;
                  EvClose ch_dequeueChannel;
                  EvClose ch_shutdownJobChannel]))
| t_Shutdown_Wait (s : System) :
    shutdown s = s_Wait ->
    shutdownWaitGroup (this s) = 0 ->
    closed (jobChannel (this s)) = false ->
    transition l_Shutdown_Wait s
      (mkSystem (set_jobChannel (close_chan (jobChannel (this s))) (this s))
         (queue s) (jobs s) (calls s) (s_returned None)
         (log s ++ tag g_Shutdown [EvWaitGroupWait; EvClose ch_jobChannel])).

(** ** Schedules *)

(** Job routine [i] takes a wake-up, dequeues a job and runs it to its end. *)
Definition drain (i : nat) : list label :=
  [l_job_wake i; l_job_dequeue i; l_job_done i].

(** Three calls of [QueueJob], then job routine 0 drains the queues. *)
Definition submit_then_drain : list label :=
  [l_QueueJob 0; l_QueueJob 1; l_QueueJob 2] ++ drain 0 ++ drain 0 ++ drain 0.

(** ** What the queue routine did *)

Definition is_queueRoutine (g : goroutine) : bool :=
  match g with
  | g_queueRoutine => true
  | _ => false
  end.

(** The events of the queue routine in a log, in order. *)
Definition queueRoutine_events (l : list (goroutine * event)) : list event :=
  map snd (List.filter (fun e => is_queueRoutine (fst e)) l).

(** The state that a schedule leads to ([s] itself when a step of the
    schedule is not enabled). *)
Definition state_after (schedule : list label) (s : System) : System :=
  match run schedule s with
  | Some s' => s'
  | None => s
  end.


(** The pool that [New] builds, for a capacity that is not negative. *)
Definition new_pool (numberOfRoutines queueCapacity : Z) : JobPool :=
  match New_JobPool numberOfRoutines queueCapacity with
  | Some p => p
  | None => empty_pool
  end.

(** ** Counting jobs *)


(** The number of calls of [RunJob] in a log. *)
Definition started (l : list (goroutine * event)) : nat :=
  length (List.filter (fun e => is_RunJob (snd e)) l).
(** * Properties *)

(** ** int32 arithmetic *)

Lemma wrap_int32_id (z : Z) : int32 z -> wrap_int32 z = z.
Proof.
  unfold int32, min_int32, max_int32, wrap_int32. intros H.
  rewrite Z.mod_small; lia.
Qed.

Lemma wrap_int32_add (a b : Z) : wrap_int32 (wrap_int32 a + b) = wrap_int32 (a + b).
Proof.
  unfold wrap_int32.
  replace ((a + 2 ^ 31) mod 2 ^ 32 - 2 ^ 31 + b + 2 ^ 31)
    with ((a + 2 ^ 31) mod 2 ^ 32 + b) by lia.
  rewrite Zplus_mod_idemp_l. f_equal. f_equal. lia.
Qed.

Lemma wrap_int32_range (z : Z) : int32 (wrap_int32 z).
Proof.
  unfold int32, min_int32, max_int32, wrap_int32.
  pose proof (Z.mod_pos_bound (z + 2 ^ 31) (2 ^ 32) ltac:(lia)). lia.
Qed.

(** ** Record updates *)

Lemma set_queuedJobs_same (p : JobPool) : set_queuedJobs (queuedJobs p) p = p.
Proof. destruct p; reflexivity. Qed.

Lemma set_activeRoutines_same (p : JobPool) : set_activeRoutines (activeRoutines p) p = p.
Proof. destruct p; reflexivity. Qed.

(** ** The two queue operations, case by case *)

Lemma enqueue_full (p : JobPool) (j : queueJob) :
  int32 (queuedJobs p) ->
  queuedJobs p = queueCapacity p ->
  queueRoutineEnqueue j p =
    (Return tt, p,
     [EvAddInt32 c_queuedJobs 0;
      EvSend (ch_queueResult (ResultChannel j)) (v_error (Some at_capacity))]).
Proof.
  intros Hq Hfull.
  unfold queueRoutineEnqueue, catchPanic, bind, AddInt32_queuedJobs, get,
    send_result, emit, atomic_AddInt32.
  rewrite Z.add_0_r, (wrap_int32_id _ Hq). simpl.
  rewrite set_queuedJobs_same.
  rewrite (proj2 (Z.eqb_eq _ _) Hfull). reflexivity.
Qed.

Lemma enqueue_room (p : JobPool) (j : queueJob) :
  int32 (queuedJobs p) ->
  queuedJobs p < max_int32 ->
  queuedJobs p <> queueCapacity p ->
  closed (jobChannel p) = false ->
  chan_has_room (jobChannel p) = true ->
  queueRoutineEnqueue j p =
    (Return tt,
     set_jobChannel (chan_push "Wake Up"%string (jobChannel p))
       (set_queuedJobs (queuedJobs p + 1) (pushed j p)),
     [EvAddInt32 c_queuedJobs 0;
      EvPushBack (Priority j) j;
      EvAddInt32 c_queuedJobs 1;
      EvSend (ch_queueResult (ResultChannel j)) (v_error None);
      EvSend ch_jobChannel (v_string "Wake Up")]).
Proof.
  intros Hq Hmax Hne Hopen Hroom.
  assert (Hq1 : int32 (queuedJobs p + 1)) by (unfold int32 in *; lia).
  unfold queueRoutineEnqueue, catchPanic, bind, AddInt32_queuedJobs, get,
    send_result, emit, atomic_AddInt32, pushed.
  rewrite Z.add_0_r, (wrap_int32_id _ Hq). simpl.
  rewrite set_queuedJobs_same.
  rewrite (proj2 (Z.eqb_neq _ _) Hne).
  destruct p as [pq nq c1 c2 c3 jc c5 wg q a capy]; simpl in *.
  destruct (Priority j); simpl;
    unfold jobChannel_send; simpl; rewrite Hopen, Hroom; simpl;
    rewrite (wrap_int32_id _ Hq1); reflexivity.
Qed.

Lemma dequeue_priority (p : JobPool) (d : dequeueJob) (j : queueJob) (rest : list queueJob) :
  priorityJobQueue p = j :: rest ->
  queueRoutineDequeue d p =
    (Return tt,
     set_queuedJobs (atomic_AddInt32 (queuedJobs p) (-1)) (set_priorityJobQueue rest p),
     [EvRemove true j;
      EvAddInt32 c_queuedJobs (-1);
      EvSend (ch_dequeueResult (dequeueResultChannel d)) (v_job j)]).
Proof.
  intros Hp.
  destruct p; simpl in *; subst; reflexivity.
Qed.

Lemma dequeue_normal (p : JobPool) (d : dequeueJob) (j : queueJob) (rest : list queueJob) :
  priorityJobQueue p = [] ->
  normalJobQueue p = j :: rest ->
  queueRoutineDequeue d p =
    (Return tt,
     set_queuedJobs (atomic_AddInt32 (queuedJobs p) (-1)) (set_normalJobQueue rest p),
     [EvRemove false j;
      EvAddInt32 c_queuedJobs (-1);
      EvSend (ch_dequeueResult (dequeueResultChannel d)) (v_job j)]).
Proof.
  intros Hp Hn.
  destruct p; simpl in *; subst; reflexivity.
Qed.

Lemma dequeue_empty (p : JobPool) (d : dequeueJob) :
  priorityJobQueue p = [] ->
  normalJobQueue p = [] ->
  queueRoutineDequeue d p =
    (Return tt, p, [EvRecovered "queueRoutineDequeue" nil_dereference]).
Proof.
  intros Hp Hn.
  destruct p; simpl in *; subst; reflexivity.
Qed.

(** The queue routine's operations never let a panic out, and a dequeue
    never parks. *)
Lemma dequeue_returns (p : JobPool) (d : dequeueJob) :
  fst (fst (queueRoutineDequeue d p)) = Return tt.
Proof.
  destruct (priorityJobQueue p) as [|j rest] eqn:Hp.
  - destruct (normalJobQueue p) as [|j rest] eqn:Hn.
    + rewrite dequeue_empty; auto.
    + rewrite (dequeue_normal p d j rest); auto.
  - rewrite (dequeue_priority p d j rest); auto.
Qed.

Lemma enqueue_never_panics (p : JobPool) (j : queueJob) (r : string) :
  fst (fst (queueRoutineEnqueue j p)) <> Panic r.
Proof.
  unfold queueRoutineEnqueue, catchPanic.
  match goal with |- context [match ?b p with _ => _ end] => destruct (b p) as [[[a| |] p1] t] end;
    simpl; try destruct a; discriminate.
Qed.

(** What an accepted enqueue leaves in the pool, whatever becomes of the
    send on [jobChannel]. *)
Lemma enqueue_accepts (p : JobPool) (j : queueJob) :
  int32 (queuedJobs p) ->
  queuedJobs p <> queueCapacity p ->
  exists o c t,
    queueRoutineEnqueue j p =
      (o, set_jobChannel c (set_queuedJobs (atomic_AddInt32 (queuedJobs p) 1) (pushed j p)), t)
    /\ sent_on_queueResult (ResultChannel j) t = Some None
    /\ cap c = cap (jobChannel p)
    /\ closed c = closed (jobChannel p).
Proof.
  intros Hq Hne.
  unfold queueRoutineEnqueue, catchPanic, bind, AddInt32_queuedJobs, get,
    send_result, emit, atomic_AddInt32, pushed.
  rewrite Z.add_0_r, (wrap_int32_id _ Hq). simpl.
  rewrite set_queuedJobs_same.
  rewrite (proj2 (Z.eqb_neq _ _) Hne).
  destruct p as [pq nq c1 c2 c3 jc c5 wg q a capy]; simpl in *.
  destruct (Priority j); simpl; unfold jobChannel_send; simpl;
    destruct (closed jc) eqn:Hc; simpl;
    try destruct (chan_has_room jc) eqn:Hr; simpl;
    eexists _, _, _; (split; [reflexivity|]); simpl; rewrite Nat.eqb_refl;
    repeat split; auto.
Qed.

(** ** The invariant of the queues and the counter *)

Lemma pushed_lengths (j : queueJob) (p : JobPool) :
  (length (priorityJobQueue (pushed j p)) + length (normalJobQueue (pushed j p))
   = S (length (priorityJobQueue p) + length (normalJobQueue p)))%nat.
Proof.
  unfold pushed. destruct (Priority j), p; simpl; rewrite length_app; simpl; lia.
Qed.

Lemma queue_invariant_int32 (p : JobPool) : queue_invariant p -> int32 (queuedJobs p).
Proof.
  unfold queue_invariant, int32, min_int32, max_int32. lia.
Qed.

Lemma enqueue_keeps_queue_invariant (p : JobPool) (j : queueJob) :
  queue_invariant p -> queue_invariant (snd (fst (queueRoutineEnqueue j p))).
Proof.
  intros Hinv. pose proof (queue_invariant_int32 p Hinv) as Hq.
  destruct (Z.eq_dec (queuedJobs p) (queueCapacity p)) as [Hfull|Hne].
  - rewrite enqueue_full; auto.
  - destruct (enqueue_accepts p j Hq Hne) as (o & c & t & -> & _).
    destruct Hinv as (Hlen & Hb & Hcap).
    pose proof (pushed_lengths j p) as Hl.
    assert (Hq1 : int32 (queuedJobs p + 1)) by (unfold int32, min_int32, max_int32 in *; lia).
    unfold queue_invariant, atomic_AddInt32. rewrite (wrap_int32_id _ Hq1).
    cbn [fst snd].
    replace (priorityJobQueue (set_jobChannel c (set_queuedJobs (queuedJobs p + 1) (pushed j p))))
      with (priorityJobQueue (pushed j p)) by reflexivity.
    replace (normalJobQueue (set_jobChannel c (set_queuedJobs (queuedJobs p + 1) (pushed j p))))
      with (normalJobQueue (pushed j p)) by reflexivity.
    replace (queuedJobs (set_jobChannel c (set_queuedJobs (queuedJobs p + 1) (pushed j p))))
      with (queuedJobs p + 1) by reflexivity.
    replace (queueCapacity (set_jobChannel c (set_queuedJobs (queuedJobs p + 1) (pushed j p))))
      with (queueCapacity p) by (unfold pushed; destruct (Priority j); reflexivity).
    rewrite Hl. lia.
Qed.

Lemma dequeue_keeps_queue_invariant (p : JobPool) (d : dequeueJob) :
  queue_invariant p -> queue_invariant (snd (fst (queueRoutineDequeue d p))).
Proof.
  intros Hinv.
  destruct (priorityJobQueue p) as [|j rest] eqn:Hp;
    [destruct (normalJobQueue p) as [|j rest] eqn:Hn|].
  - rewrite dequeue_empty; auto.
  - rewrite (dequeue_normal p d j rest); auto.
    destruct Hinv as (Hlen & Hb & Hcap). rewrite Hp, Hn in Hlen. simpl length in Hlen.
    assert (Hq1 : int32 (queuedJobs p + -1)) by (unfold int32, min_int32, max_int32 in *; lia).
    unfold queue_invariant, atomic_AddInt32. rewrite (wrap_int32_id _ Hq1).
    destruct p; simpl in *; subst; simpl. lia.
  - rewrite (dequeue_priority p d j rest); auto.
    destruct Hinv as (Hlen & Hb & Hcap). rewrite Hp in Hlen. simpl length in Hlen.
    assert (Hq1 : int32 (queuedJobs p + -1)) by (unfold int32, min_int32, max_int32 in *; lia).
    unfold queue_invariant, atomic_AddInt32. rewrite (wrap_int32_id _ Hq1).
    destruct p; simpl in *; subst; simpl. lia.
Qed.

Lemma New_JobPool_queue_invariant (n capacity : Z) (p : JobPool) :
  capacity <= max_int32 ->
  New_JobPool n capacity = Some p ->
  queue_invariant p.
Proof.
  unfold New_JobPool. intros Hc. destruct (capacity <? 0) eqn:Hneg; [discriminate|].
  intros [= <-]. apply Z.ltb_ge in Hneg. unfold queue_invariant; simpl. lia.
Qed.

Lemma enqueue_all_counts (js : list queueJob) (p : JobPool) :
  queue_invariant p ->
  queue_invariant (snd (enqueue_all js p))
  /\ queuedJobs (snd (enqueue_all js p))
     = queuedJobs p + Z.of_nat (length (List.filter accepted (fst (enqueue_all js p))))
  /\ length (fst (enqueue_all js p)) = length js.
Proof.
  revert p. induction js as [|j rest IH]; intros p Hinv; simpl.
  - split; [assumption|split; [simpl; lia|reflexivity]].
  - pose proof (queue_invariant_int32 p Hinv) as Hq.
    pose proof (enqueue_keeps_queue_invariant p j Hinv) as Hinv1.
    destruct (Z.eq_dec (queuedJobs p) (queueCapacity p)) as [Hfull|Hne].
    + rewrite enqueue_full in *; auto. simpl in Hinv1.
      destruct (IH p Hinv) as (H1 & H2 & H3).
      destruct (enqueue_all rest p) as [answers p2]. simpl in *.
      rewrite Nat.eqb_refl. simpl.
      split; [assumption|split; [assumption|lia]].
    + destruct (enqueue_accepts p j Hq Hne) as (o & c & t & Heq & Hsent & _).
      rewrite Heq in *. simpl in Hinv1.
      destruct (IH _ Hinv1) as (H1 & H2 & H3).
      destruct (enqueue_all rest _) as [answers p2]. simpl in *.
      rewrite Hsent. simpl.
      split; [assumption|split; [|lia]].
      rewrite H2. simpl length.
      assert (Hq1 : int32 (queuedJobs p + 1)).
      { destruct Hinv as (Hlen & Hb & Hcap). unfold int32, min_int32, max_int32 in *. lia. }
      replace (queuedJobs (set_jobChannel c
                 (set_queuedJobs (atomic_AddInt32 (queuedJobs p) 1) (pushed j p))))
        with (atomic_AddInt32 (queuedJobs p) 1) by reflexivity.
      unfold atomic_AddInt32. rewrite (wrap_int32_id _ Hq1). lia.
Qed.

(** ** The functions of the callers and job routines, case by case *)

Lemma QueueJob_closed (call : nat) (jober : Jobber) (priority : bool)
    (answer : option error) (p : JobPool) :
  closed (queueChannel p) = true ->
  QueueJob call jober priority answer p =
    (Return (Some send_on_closed), p,
     [EvClose (ch_queueResult call); EvRecovered "QueueJob" send_on_closed]).
Proof.
  intros Hc. unfold QueueJob, catchPanic, defer, bind, queueChannel_send.
  rewrite Hc. reflexivity.
Qed.

Lemma QueueJob_answered (call : nat) (jober : Jobber) (priority : bool)
    (err : error) (p : JobPool) :
  closed (queueChannel p) = false ->
  QueueJob call jober priority (Some err) p =
    (Return err, p,
     [EvSend ch_queueChannel (v_job (mkQueueJob jober priority call));
      EvRecv (ch_queueResult call);
      EvClose (ch_queueResult call)]).
Proof.
  intros Hc. unfold QueueJob, catchPanic, defer, bind, queueChannel_send.
  rewrite Hc. reflexivity.
Qed.

Lemma QueueJob_unanswered (call : nat) (jober : Jobber) (priority : bool) (p : JobPool) :
  closed (queueChannel p) = false ->
  QueueJob call jober priority None p =
    (Parked, p, [EvSend ch_queueChannel (v_job (mkQueueJob jober priority call))]).
Proof.
  intros Hc. unfold QueueJob, catchPanic, defer, bind, queueChannel_send.
  rewrite Hc. reflexivity.
Qed.

Lemma dequeueJob_closed (i : nat) (answer : option queueJob) (p : JobPool) :
  closed (dequeueChannel p) = true ->
  JobPool_dequeueJob i answer p =
    (Return (None, Some send_on_closed), p,
     [EvClose (ch_dequeueResult i); EvRecovered "dequeueJob" send_on_closed]).
Proof.
  intros Hc. unfold JobPool_dequeueJob, catchPanic, defer, bind, dequeueChannel_send.
  rewrite Hc. reflexivity.
Qed.

Lemma dequeueJob_answered (i : nat) (j : queueJob) (p : JobPool) :
  closed (dequeueChannel p) = false ->
  JobPool_dequeueJob i (Some j) p =
    (Return (Some j, None), p,
     [EvSend ch_dequeueChannel v_request;
      EvRecv (ch_dequeueResult i);
      EvClose (ch_dequeueResult i)]).
Proof.
  intros Hc. unfold JobPool_dequeueJob, catchPanic, defer, bind, dequeueChannel_send.
  rewrite Hc. reflexivity.
Qed.

Lemma dequeueJob_unanswered (i : nat) (p : JobPool) :
  closed (dequeueChannel p) = false ->
  JobPool_dequeueJob i None p = (Parked, p, [EvSend ch_dequeueChannel v_request]).
Proof.
  intros Hc. unfold JobPool_dequeueJob, catchPanic, defer, bind, dequeueChannel_send.
  rewrite Hc. reflexivity.
Qed.

Lemma doJobSafely_rest_closed (i : nat) (answer : option queueJob) (p : JobPool) :
  closed (dequeueChannel p) = true ->
  doJobSafely_deferred (r <- JobPool_dequeueJob i answer ;; doJobSafely_run i r) p =
    (Return tt, set_activeRoutines (atomic_AddInt32 (activeRoutines p) (-1)) p,
     [EvClose (ch_dequeueResult i); EvRecovered "dequeueJob" send_on_closed;
      EvAddInt32 c_activeRoutines (-1)]).
Proof.
  intros Hc. unfold doJobSafely_deferred, catchPanic, defer, bind.
  rewrite (dequeueJob_closed i answer p Hc). reflexivity.
Qed.

Lemma doJobSafely_done (r : RunResult) (p : JobPool) :
  doJobSafely_deferred (RunJob_result r) p =
    match r with
    | Returns =>
        (Return tt, set_activeRoutines (atomic_AddInt32 (activeRoutines p) (-1)) p,
         [EvAddInt32 c_activeRoutines (-1)])
    | Panics v =>
        (Return tt, set_activeRoutines (atomic_AddInt32 (activeRoutines p) (-1)) p,
         [EvAddInt32 c_activeRoutines (-1); EvRecovered "doJobSafely" v])
    | NeverReturns => (Parked, p, [])
    end.
Proof. destruct r; reflexivity. Qed.

(** ** Lists of goroutines *)

Lemma sum_lookup_le {A : Type} (f : A -> nat) (l : list A) (i : nat) (x : A) :
  l !! i = Some x -> (f x <= sum_list_with f l)%nat.
Proof.
  revert i. induction l as [|y l IH]; intros [|i] H; simpl in *; try discriminate.
  - injection H as ->. lia.
  - specialize (IH i H). lia.
Qed.

Lemma sum_insert {A : Type} (f : A -> nat) (l : list A) (i : nat) (x y : A) :
  l !! i = Some x ->
  (sum_list_with f (<[i := y]> l) + f x = sum_list_with f l + f y)%nat.
Proof.
  revert i. induction l as [|z l IH]; intros [|i] H; simpl in *; try discriminate.
  - injection H as ->. lia.
  - specialize (IH i H). lia.
Qed.

Lemma lookup_insert_other {A : Type} (l : list A) (i k : nat) (y bad : A) :
  y <> bad ->
  l !! k <> Some bad ->
  <[i := y]> l !! k <> Some bad.
Proof.
  intros Hy Hl H. apply list_lookup_insert_Some in H.
  destruct H as [(_ & H & _)|(_ & H)]; auto.
Qed.

(** ** What the invariant says about a state *)

Lemma handshake_cases (s : System) :
  handshake s ->
  (queue s = q_select
   /\ channels_closed (this s) = (false, false, false, false, false)
   /\ (shutdown s = s_idle \/ shutdown s = s_send))
  \/ (queue s = q_Down_send
      /\ channels_closed (this s) = (false, false, false, false, false)
      /\ shutdown s = s_recv)
  \/ (queue s = q_returned
      /\ channels_closed (this s) = (true, true, true, true, false)
      /\ shutdown s = s_Wait)
  \/ (queue s = q_returned
      /\ channels_closed (this s) = (true, true, true, true, true)
      /\ sum_list_with not_returned (jobs s) = O
      /\ shutdown s = s_returned None).
Proof.
  unfold handshake. destruct (shutdown s) as [| | | |[e|]]; intros H;
    try contradiction; tauto.
Qed.

Lemma invariant_room (s : System) :
  invariant s ->
  queuedJobs (this s) < queueCapacity (this s) ->
  chan_has_room (jobChannel (this s)) = true.
Proof.
  intros [_ Hcap Hwake _ _ _ _ _] Hlt.
  unfold chan_has_room. apply Z.ltb_lt. rewrite Hcap. lia.
Qed.

Lemma step_QueueJob_transition (s s' : System) (c : nat) :
  invariant s ->
  step_QueueJob c s = Some s' ->
  transition (l_QueueJob c) s s'.
Proof.
  intros Hinv. unfold step_QueueJob.
  destruct (calls s !! c) as [[jober priority| |]|] eqn:Hc; try discriminate.
  destruct (closed (queueChannel (this s))) eqn:Hclosed.
  - rewrite QueueJob_closed by assumption. intros [= <-].
    eapply t_QueueJob_closed; eauto.
  - destruct (queue s) eqn:Hq; try discriminate.
    pose proof (inv_queue s Hinv) as Hqi.
    pose proof (queue_invariant_int32 _ Hqi) as Hint.
    destruct Hqi as (Hlen & Hb & Hmax).
    destruct (Z.eq_dec (queuedJobs (this s)) (queueCapacity (this s))) as [Hfull|Hne].
    + rewrite enqueue_full by assumption. simpl sent_on_queueResult.
      rewrite Nat.eqb_refl, QueueJob_answered by assumption.
      intros [= <-]. eapply t_QueueJob_full; eauto.
    + assert (Hlt : queuedJobs (this s) < queueCapacity (this s)) by lia.
      destruct (handshake_cases s (inv_handshake s Hinv))
        as [(_ & Hch & _)|[(Hq' & _)|[(Hq' & _)|(Hq' & _)]]]; try congruence.
      unfold channels_closed in Hch. injection Hch as _ _ _ _ Hjc.
      rewrite (enqueue_room (this s) (mkQueueJob jober priority c))
        by (auto using invariant_room; lia).
      simpl sent_on_queueResult. rewrite Nat.eqb_refl.
      rewrite QueueJob_answered
        by (unfold pushed; simpl; destruct priority; exact Hclosed).
      intros [= <-]. eapply t_QueueJob_accepted; eauto.
Qed.

Lemma step_queue_wake_never (s : System) :
  invariant s -> step_queue_wake s = None.
Proof.
  intros Hinv. unfold step_queue_wake.
  destruct (handshake_cases s (inv_handshake s Hinv))
    as [(-> & _)|[(-> & _)|[(-> & _)|(-> & _)]]]; reflexivity.
Qed.

Lemma step_job_wake_transition (s s' : System) (i : nat) :
  invariant s ->
  step_job_wake i s = Some s' ->
  transition (l_job_wake i) s s'.
Proof.
  intros Hinv. unfold step_job_wake.
  destruct (jobs s !! i) as [[| | | |]|] eqn:Hi; try discriminate.
  unfold bind, jobChannel_recv.
  destruct (buf (jobChannel (this s))) as [|token tokens] eqn:Hbuf.
  - destruct (closed (jobChannel (this s))) eqn:Hclosed; [|discriminate].
    destruct (handshake_cases s (inv_handshake s Hinv))
      as [(_ & Hch & _)|[(_ & Hch & _)|[(_ & Hch & _)|(_ & _ & Hall & _)]]];
      try (unfold channels_closed in Hch; congruence).
    pose proof (sum_lookup_le not_returned _ _ _ Hi) as Hle. simpl in Hle. lia.
  - intros [= <-]. eapply t_job_wake; eauto.
Qed.

Lemma step_job_shutdown_transition (s s' : System) (i : nat) :
  invariant s ->
  step_job_shutdown i s = Some s' ->
  transition (l_job_shutdown i) s s'.
Proof.
  intros Hinv. unfold step_job_shutdown.
  destruct (jobs s !! i) as [[| | | |]|] eqn:Hi; try discriminate.
  destruct (closed (shutdownJobChannel (this s))) eqn:Hclosed; [|discriminate].
  pose proof (sum_lookup_le not_returned _ _ _ Hi) as Hle. simpl in Hle.
  pose proof (inv_wg s Hinv) as Hwg.
  unfold shutdownWaitGroup_Done.
  destruct (shutdownWaitGroup (this s) - 1 <? 0) eqn:Hneg.
  - apply Z.ltb_lt in Hneg. lia.
  - intros [= <-]. eapply t_job_shutdown; eauto. lia.
Qed.

Lemma invariant_queued (s : System) (i : nat) :
  invariant s ->
  jobs s !! i = Some w_dequeue_send ->
  (exists j rest, priorityJobQueue (this s) = j :: rest)
  \/ (priorityJobQueue (this s) = [] /\ exists j rest, normalJobQueue (this s) = j :: rest).
Proof.
  intros Hinv Hi.
  pose proof (sum_lookup_le awaiting_dequeue _ _ _ Hi) as Hle. simpl in Hle.
  pose proof (inv_wake s Hinv) as Hwake.
  destruct (inv_queue s Hinv) as (Hlen & _).
  destruct (priorityJobQueue (this s)) as [|j rest]; [right|left; eauto].
  split; [reflexivity|].
  destruct (normalJobQueue (this s)) as [|j rest]; [simpl in Hlen; lia|eauto].
Qed.

Lemma step_job_dequeue_transition (s s' : System) (i : nat) :
  invariant s ->
  step_job_dequeue i s = Some s' ->
  transition (l_job_dequeue i) s s'.
Proof.
  intros Hinv. unfold step_job_dequeue.
  destruct (jobs s !! i) as [[| | | |]|] eqn:Hi; try discriminate.
  destruct (closed (dequeueChannel (this s))) eqn:Hclosed.
  - rewrite doJobSafely_rest_closed by assumption. intros [= <-].
    eapply t_job_dequeue_closed; eauto.
  - destruct (queue s) eqn:Hq; try discriminate.
    destruct (invariant_queued s i Hinv Hi) as [(j & rest & Hp)|(Hp & j & rest & Hn)].
    + rewrite (dequeue_priority _ _ j rest) by assumption.
      simpl sent_on_dequeueResult. rewrite Nat.eqb_refl.
      rewrite dequeueJob_answered by (destruct (this s); exact Hclosed).
      intros [= <-]. eapply t_job_dequeue_priority; eauto.
    + rewrite (dequeue_normal _ _ j rest) by assumption.
      simpl sent_on_dequeueResult. rewrite Nat.eqb_refl.
      rewrite dequeueJob_answered by (destruct (this s); exact Hclosed).
      intros [= <-]. eapply t_job_dequeue_normal; eauto.
Qed.

Lemma step_job_done_transition (s s' : System) (i : nat) :
  step_job_done i s = Some s' ->
  transition (l_job_done i) s s'.
Proof.
  unfold step_job_done.
  destruct (jobs s !! i) as [[| | |j|]|] eqn:Hi; try discriminate.
  rewrite doJobSafely_done.
  destruct (RunJob (jobber j) (Z.of_nat i)) as [|v|] eqn:Hr; try discriminate;
    intros [= <-].
  - eapply t_job_done_returns; eauto.
  - eapply t_job_done_panics; eauto.
Qed.

Lemma invariant_channels (s : System) :
  invariant s ->
  (shutdown s = s_idle \/ shutdown s = s_send \/ shutdown s = s_recv ->
   channels_closed (this s) = (false, false, false, false, false))
  /\ (shutdown s = s_Wait ->
      channels_closed (this s) = (true, true, true, true, false)).
Proof.
  intros Hinv.
  destruct (handshake_cases s (inv_handshake s Hinv))
    as [(Hq & Hch & Hsh)|[(Hq & Hch & Hsh)|[(Hq & Hch & Hsh)|(Hq & Hch & Hall & Hsh)]]];
    split; intros H; try assumption;
    repeat match goal with H : _ \/ _ |- _ => destruct H end; congruence.
Qed.

Lemma step_Shutdown_call_transition (s s' : System) :
  step_Shutdown_call s = Some s' -> transition l_Shutdown_call s s'.
Proof.
  unfold step_Shutdown_call.
  destruct (shutdown s) eqn:Hsh; try discriminate.
  intros [= <-]. apply t_Shutdown_call. assumption.
Qed.

Lemma step_Shutdown_send_transition (s s' : System) :
  invariant s ->
  step_Shutdown_send s = Some s' -> transition l_Shutdown_send s s'.
Proof.
  intros Hinv. unfold step_Shutdown_send.
  destruct (shutdown s) eqn:Hsh; try discriminate.
  destruct (invariant_channels s Hinv) as [Hch _].
  specialize (Hch (or_intror (or_introl Hsh))).
  unfold channels_closed in Hch. injection Hch as H1 H2 H3 H4 H5.
  rewrite H1.
  destruct (queue s) eqn:Hq; try discriminate.
  intros [= <-]. apply t_Shutdown_send; assumption.
Qed.

Lemma step_Shutdown_recv_transition (s s' : System) :
  invariant s ->
  step_Shutdown_recv s = Some s' -> transition l_Shutdown_recv s s'.
Proof.
  intros Hinv. unfold step_Shutdown_recv.
  destruct (shutdown s) eqn:Hsh; try discriminate.
  destruct (queue s) eqn:Hq; try discriminate.
  destruct (invariant_channels s Hinv) as [Hch _].
  specialize (Hch (or_intror (or_intror Hsh))).
  pose proof Hch as Hch'.
  unfold channels_closed in Hch'. injection Hch' as H1 H2 H3 H4 H5.
  unfold bind, recv_answer, emit, ret, close_shutdownQueueChannel, close_queueChannel,
    close_dequeueChannel, close_shutdownJobChannel, modify.
  simpl. rewrite H1. simpl. rewrite H2. simpl. rewrite H3. simpl. rewrite H4. simpl.
  intros [= <-]. apply t_Shutdown_recv; assumption.
Qed.

Lemma step_Shutdown_Wait_transition (s s' : System) :
  invariant s ->
  step_Shutdown_Wait s = Some s' -> transition l_Shutdown_Wait s s'.
Proof.
  intros Hinv. unfold step_Shutdown_Wait.
  destruct (shutdown s) eqn:Hsh; try discriminate.
  destruct (invariant_channels s Hinv) as [_ Hch].
  specialize (Hch Hsh).
  unfold channels_closed in Hch. injection Hch as H1 H2 H3 H4 H5.
  unfold catchPanic, bind, shutdownWaitGroup_Wait, close_jobChannel, emit, ret, modify.
  destruct (shutdownWaitGroup (this s) =? 0) eqn:Hwg; [|discriminate].
  apply Z.eqb_eq in Hwg. simpl. rewrite H5. simpl.
  intros [= <-]. apply t_Shutdown_Wait; assumption.
Qed.

Lemma step_transition (s s' : System) (l : label) :
  invariant s ->
  step l s = Some s' ->
  transition l s s'.
Proof.
  intros Hinv. destruct l; simpl.
  - apply step_QueueJob_transition; assumption.
  - rewrite step_queue_wake_never by assumption. discriminate.
  - apply step_job_wake_transition; assumption.
  - apply step_job_shutdown_transition; assumption.
  - apply step_job_dequeue_transition; assumption.
  - apply step_job_done_transition.
  - apply step_Shutdown_call_transition.
  - apply step_Shutdown_send_transition; assumption.
  - apply step_Shutdown_recv_transition; assumption.
  - apply step_Shutdown_Wait_transition; assumption.
Qed.

Lemma handshake_same (s s' : System) :
  shutdown s' = shutdown s ->
  queue s' = queue s ->
  channels_closed (this s') = channels_closed (this s) ->
  (sum_list_with not_returned (jobs s) = O -> sum_list_with not_returned (jobs s') = O) ->
  handshake s -> handshake s'.
Proof.
  unfold handshake. intros -> -> -> Hsum.
  destruct (shutdown s) as [| | | |[e|]]; tauto.
Qed.

Lemma sum_insert_zero {A : Type} (f : A -> nat) (l : list A) (i : nat) (x y : A) :
  l !! i = Some x ->
  (f y <= f x)%nat ->
  sum_list_with f l = O -> sum_list_with f (<[i := y]> l) = O.
Proof.
  intros Hi Hle. pose proof (sum_insert f l i x y Hi). lia.
Qed.

Lemma transition_handshake (l : label) (s s' : System) :
  invariant s -> transition l s s' -> handshake s'.
Proof.
  intros Hinv Ht.
  pose proof (inv_handshake s Hinv) as Hhs.
  inversion Ht; subst;
    try (apply (handshake_same s); simpl; auto;
         try (unfold pushed; destruct priority; reflexivity);
         try (eapply sum_insert_zero; eauto; simpl; lia); fail).
  - unfold handshake in *. simpl. rewrite H in Hhs. exact Hhs.
  - unfold handshake in *. simpl. rewrite H in Hhs. tauto.
  - unfold handshake in *. simpl. split; [reflexivity|].
    unfold channels_closed in *. simpl. congruence.
  - unfold handshake in *. simpl. rewrite H in Hhs. destruct Hhs as [Hq Hch].
    split; [assumption|]. split.
    + unfold channels_closed in *. simpl. congruence.
    + pose proof (inv_wg s Hinv). lia.
Qed.

Ltac count_jobs :=
  match goal with
  | H : jobs _ !! _ = Some _ |- context [<[_ := ?y]> (jobs _)] =>
      pose proof (sum_insert awaiting_dequeue _ _ _ y H);
      pose proof (sum_insert not_returned _ _ _ y H);
      pose proof (sum_insert counted_active _ _ _ y H);
      pose proof (sum_lookup_le counted_active _ _ _ H);
      simpl in *
  end.

Lemma pushed_other (j : queueJob) (p : JobPool) :
  queueCapacity (pushed j p) = queueCapacity p
  /\ shutdownWaitGroup (pushed j p) = shutdownWaitGroup p
  /\ activeRoutines (pushed j p) = activeRoutines p
  /\ jobChannel (pushed j p) = jobChannel p
  /\ queuedJobs (pushed j p) = queuedJobs p.
Proof.
  unfold pushed. destruct (Priority j); repeat split.
Qed.

Lemma dequeue_counter (p : JobPool) :
  0 < queuedJobs p <= max_int32 ->
  atomic_AddInt32 (queuedJobs p) (-1) = queuedJobs p - 1.
Proof.
  intros H. unfold atomic_AddInt32. apply wrap_int32_id.
  unfold int32, min_int32, max_int32 in *. lia.
Qed.

Lemma transition_invariant (l : label) (s s' : System) :
  invariant s -> transition l s s' -> invariant s'.
Proof.
  intros Hinv Ht.
  pose proof (transition_handshake l s s' Hinv Ht) as Hhs'.
  destruct Hinv as [Hqi Hcap Hwake Hrecv Hcalls Hwg Hactive _].
  pose proof Hqi as (Hlen & Hrange & Hmax).
  inversion Ht; subst; constructor; simpl; try assumption.
  all: try (intros k; apply lookup_insert_other; [discriminate | auto]).
  all: try (count_jobs; lia).
  all: try (count_jobs; unfold atomic_AddInt32; rewrite Hactive, wrap_int32_add;
            f_equal; lia).
  all: clear Ht Hhs'.
  all: try (count_jobs; rewrite Hactive; f_equal; lia).
  all: try match goal with
       | |- context [pushed ?j ?p] =>
           pose proof (pushed_lengths j p);
           destruct (pushed_other j p) as (Hp1 & Hp2 & Hp3 & Hp4 & Hp5)
       end.
  all: try congruence.
  all: try match goal with
       | H : buf _ = _ :: _ |- _ => rewrite H in *; simpl in *; count_jobs; lia
       end.
  all: try (rewrite length_app; simpl; lia).
  all: try (count_jobs; rewrite dequeue_counter by lia; lia).
  all: unfold queue_invariant; simpl.
  all: try rewrite dequeue_counter by lia.
  all: try match goal with H : _ = _ :: _ |- _ => rewrite H in *; simpl in * end.
  all: try rewrite Hp1.
  all: try lia.
  all: repeat match goal with H : _ = _ :: _ |- _ => rewrite H in *; simpl in * end.
  all: rewrite dequeue_counter by lia; lia.
Qed.

Lemma sum_replicate {A : Type} (f : A -> nat) (n : nat) (x : A) :
  sum_list_with f (replicate n x) = (n * f x)%nat.
Proof.
  induction n as [|n IH]; simpl; [reflexivity|]. rewrite IH. lia.
Qed.

Lemma lookup_map_call_send (submitted : list (Jobber * bool)) (c : nat) :
  map (fun c => call_send (fst c) (snd c)) submitted !! c <> Some call_recv.
Proof.
  revert c. induction submitted as [|x l IH]; intros [|c]; simpl; try discriminate.
  apply IH.
Qed.

Lemma New_invariant (numberOfRoutines capacity : Z) (submitted : list (Jobber * bool))
    (s : System) :
  capacity <= max_int32 ->
  New numberOfRoutines capacity submitted = Some s ->
  invariant s.
Proof.
  intros Hmax. unfold New, New_JobPool.
  destruct (capacity <? 0) eqn:Hneg; [discriminate|].
  apply Z.ltb_ge in Hneg. intros [= <-].
  constructor; simpl; rewrite ?sum_replicate; simpl.
  - unfold queue_invariant. simpl. lia.
  - reflexivity.
  - lia.
  - intros i H. apply lookup_replicate in H. destruct H as [H _]. discriminate.
  - apply lookup_map_call_send.
  - f_equal. lia.
  - rewrite Nat.mul_0_r. reflexivity.
  - unfold handshake. simpl. split; reflexivity.
Qed.

Lemma run_invariant (schedule : list label) (s s' : System) :
  invariant s -> run schedule s = Some s' -> invariant s'.
Proof.
  revert s. induction schedule as [|l rest IH]; intros s Hinv; simpl.
  - intros [= <-]. assumption.
  - destruct (step l s) as [s1|] eqn:Hstep; [|discriminate].
    apply IH. apply (transition_invariant l s s1 Hinv).
    apply step_transition; assumption.
Qed.

Lemma reachable_invariant (s s' : System) :
  invariant s -> reachable s s' -> invariant s'.
Proof.
  intros Hinv [schedule Hrun]. eapply run_invariant; eassumption.
Qed.

Lemma invariant_jobChannel_open (s : System) :
  invariant s -> queue s = q_select -> closed (jobChannel (this s)) = false.
Proof.
  intros Hinv Hq.
  destruct (handshake_cases s (inv_handshake s Hinv))
    as [(_ & Hch & _)|[(Hq' & _)|[(Hq' & _)|(Hq' & _)]]]; try congruence.
  unfold channels_closed in Hch. congruence.
Qed.

Lemma transition_step (l : label) (s s' : System) :
  invariant s -> transition l s s' -> step l s = Some s'.
Proof.
  intros Hinv Ht.
  pose proof (inv_queue s Hinv) as Hqi.
  pose proof (queue_invariant_int32 _ Hqi) as Hint.
  destruct Hqi as (Hlen & Hb & Hmax).
  destruct Ht; simpl.
  - unfold step_QueueJob. rewrite H, H0, QueueJob_closed by assumption. reflexivity.
  - unfold step_QueueJob. rewrite H, H0, H1, enqueue_full by assumption.
    simpl sent_on_queueResult. rewrite Nat.eqb_refl, QueueJob_answered by assumption.
    reflexivity.
  - unfold step_QueueJob. rewrite H, H0, H1.
    rewrite (enqueue_room (this s) (mkQueueJob jober priority c))
      by (auto using invariant_room, invariant_jobChannel_open; lia).
    simpl sent_on_queueResult. rewrite Nat.eqb_refl.
    rewrite QueueJob_answered
      by (unfold pushed; simpl; destruct priority; exact H0).
    reflexivity.
  - unfold step_job_wake. rewrite H.
    unfold bind, jobChannel_recv. rewrite H0. reflexivity.
  - unfold step_job_shutdown. rewrite H, H0. unfold shutdownWaitGroup_Done.
    destruct (shutdownWaitGroup (this s) - 1 <? 0) eqn:Hneg.
    + apply Z.ltb_lt in Hneg. lia.
    + reflexivity.
  - unfold step_job_dequeue. rewrite H, H0, doJobSafely_rest_closed by assumption.
    reflexivity.
  - unfold step_job_dequeue. rewrite H, H0, H1.
    rewrite (dequeue_priority _ _ j rest) by assumption.
    simpl sent_on_dequeueResult. rewrite Nat.eqb_refl.
    rewrite dequeueJob_answered by (destruct (this s); exact H0).
    reflexivity.
  - unfold step_job_dequeue. rewrite H, H0, H1.
    rewrite (dequeue_normal _ _ j rest) by assumption.
    simpl sent_on_dequeueResult. rewrite Nat.eqb_refl.
    rewrite dequeueJob_answered by (destruct (this s); exact H0).
    reflexivity.
  - unfold step_job_done. rewrite H, doJobSafely_done, H0. reflexivity.
  - unfold step_job_done. rewrite H, doJobSafely_done, H0. reflexivity.
  - unfold step_Shutdown_call. rewrite H. reflexivity.
  - unfold step_Shutdown_send. rewrite H, H0, H1. reflexivity.
  - unfold step_Shutdown_recv. rewrite H, H0.
    unfold channels_closed in H1. injection H1 as H1 H2 H3 H4 H5.
    unfold bind, recv_answer, emit, ret, close_shutdownQueueChannel, close_queueChannel,
      close_dequeueChannel, close_shutdownJobChannel, modify.
    simpl. rewrite H1. simpl. rewrite H2. simpl. rewrite H3. simpl. rewrite H4. simpl.
    reflexivity.
  - unfold step_Shutdown_Wait. rewrite H.
    unfold catchPanic, bind, shutdownWaitGroup_Wait, close_jobChannel, emit, ret, modify.
    rewrite H0. simpl. rewrite H1. reflexivity.
Qed.

(** ** Termination of [Shutdown] *)




Lemma all_returned (ws : list jobRoutine_pc) :
  sum_list_with not_returned ws = O ->
  forall i w, ws !! i = Some w -> w = w_returned.
Proof.
  intros Hsum i w Hi. pose proof (sum_lookup_le not_returned _ _ _ Hi) as Hle.
  destruct w; simpl in Hle; try lia. reflexivity.
Qed.

Lemma some_not_returned (ws : list jobRoutine_pc) :
  sum_list_with not_returned ws <> O ->
  exists i w, ws !! i = Some w /\ w <> w_returned.
Proof.
  induction ws as [|w ws IH]; simpl; [congruence|]. intros Hsum.
  destruct w; try (exists O; eexists; split; [reflexivity|discriminate]).
  destruct (IH Hsum) as (i & w & Hi & Hw). exists (S i), w. auto.
Qed.

(** Once [Shutdown] has been called and every job's [RunJob] ends, some
    step is enabled until [Shutdown] has returned. *)
Lemma progress (s : System) :
  invariant s ->
  jobs_terminate s ->
  Shutdown_called s ->
  (shutdown s = s_returned None /\ jobRoutines_returned s)
  \/ exists l s', step l s = Some s'.
Proof.
  intros Hinv (_ & _ & Hj & _) Hcalled.
  destruct (handshake_cases s (inv_handshake s Hinv))
    as [(Hq & Hch & [Hsh|Hsh])|[(Hq & Hch & Hsh)|[(Hq & Hch & Hsh)|(Hq & Hch & Hall & Hsh)]]].
  - contradiction.
  - right. eexists _, _. apply (transition_step _ _ _ Hinv).
    apply t_Shutdown_send; auto. unfold channels_closed in Hch. congruence.
  - right. eexists _, _. apply (transition_step _ _ _ Hinv).
    apply t_Shutdown_recv; auto.
  - right. unfold channels_closed in Hch. injection Hch as H1 H2 H3 H4 H5.
    destruct (Nat.eq_dec (sum_list_with not_returned (jobs s)) O) as [Hz|Hnz].
    + eexists _, _. apply (transition_step _ _ _ Hinv).
      apply t_Shutdown_Wait; auto. rewrite (inv_wg s Hinv). lia.
    + destruct (some_not_returned _ Hnz) as (i & w & Hi & Hw).
      pose proof (Forall_lookup_1 _ _ _ _ Hj Hi) as Hterm.
      destruct w as [| | |j|]; simpl in Hterm.
      * eexists _, _. apply (transition_step _ _ _ Hinv).
        eapply t_job_shutdown; eauto. rewrite (inv_wg s Hinv). lia.
      * eexists _, _. apply (transition_step _ _ _ Hinv).
        eapply t_job_dequeue_closed; eauto.
      * destruct (inv_recv s Hinv i Hi).
      * specialize (Hterm (Z.of_nat i)).
        destruct (RunJob (jobber j) (Z.of_nat i)) as [|v|] eqn:Hr; [| |contradiction].
        -- eexists _, _. apply (transition_step _ _ _ Hinv).
           eapply t_job_done_returns; eauto.
        -- eexists _, _. apply (transition_step _ _ _ Hinv).
           eapply t_job_done_panics; eauto.
      * contradiction.
  - left. split; [assumption|]. unfold jobRoutines_returned. apply all_returned. assumption.
Qed.



(** ** The number of job routines *)

Lemma transition_jobs_length (l : label) (s s' : System) :
  transition l s s' -> length (jobs s') = length (jobs s).
Proof.
  intros Ht. destruct Ht; simpl; rewrite ?length_insert; reflexivity.
Qed.

Lemma run_jobs_length (schedule : list label) (s s' : System) :
  invariant s -> run schedule s = Some s' -> length (jobs s') = length (jobs s).
Proof.
  revert s. induction schedule as [|l rest IH]; intros s Hinv; simpl.
  - intros [= <-]. reflexivity.
  - destruct (step l s) as [s1|] eqn:Hstep; [|discriminate].
    apply (step_transition _ _ _ Hinv) in Hstep. intros Hrun.
    rewrite (IH s1 (transition_invariant _ _ _ Hinv Hstep) Hrun).
    eapply transition_jobs_length; eassumption.
Qed.

Lemma sum_le_length {A : Type} (f : A -> nat) (l : list A) :
  (forall x, f x <= 1)%nat -> (sum_list_with f l <= length l)%nat.
Proof.
  intros Hf. induction l as [|x l IH]; simpl; [lia|]. specialize (Hf x). lia.
Qed.

Lemma counted_active_le_1 (w : jobRoutine_pc) : (counted_active w <= 1)%nat.
Proof. destruct w; simpl; lia. Qed.

Lemma reachable_active (numberOfRoutines capacity : Z) (submitted : list (Jobber * bool))
    (s0 s : System) :
  capacity <= max_int32 ->
  numberOfRoutines <= max_int32 ->
  New numberOfRoutines capacity submitted = Some s0 ->
  reachable s0 s ->
  ActiveRoutines (this s) = Z.of_nat (sum_list_with counted_active (jobs s))
  /\ 0 <= ActiveRoutines (this s) <= Z.max 0 numberOfRoutines.
Proof.
  intros Hcap Hn HNew [schedule Hrun].
  pose proof (New_invariant _ _ _ _ Hcap HNew) as Hinv0.
  pose proof (run_invariant _ _ _ Hinv0 Hrun) as Hinv.
  pose proof (run_jobs_length _ _ _ Hinv0 Hrun) as Hlen.
  assert (Hlen0 : length (jobs s0) = Z.to_nat numberOfRoutines).
  { unfold New in HNew. destruct (New_JobPool numberOfRoutines capacity); [|discriminate].
    injection HNew as <-. simpl. apply length_replicate. }
  pose proof (sum_le_length counted_active (jobs s) counted_active_le_1) as Hle.
  assert (Hact : ActiveRoutines (this s) = Z.of_nat (sum_list_with counted_active (jobs s))).
  { unfold ActiveRoutines, atomic_AddInt32.
    assert (Hint : int32 (Z.of_nat (sum_list_with counted_active (jobs s))))
      by (unfold int32, min_int32, max_int32 in *; lia).
    rewrite (inv_active s Hinv), Z.add_0_r, (wrap_int32_id _ Hint).
    apply wrap_int32_id. exact Hint. }
  split; [assumption|]. rewrite Hact. lia.
Qed.

Lemma doJobSafely_answered (i : nat) (j : queueJob) (p : JobPool) :
  closed (dequeueChannel p) = false ->
  doJobSafely i (Some j) p =
    let started :=
      [EvAddInt32 c_activeRoutines 1;
       EvSend ch_dequeueChannel v_request;
       EvRecv (ch_dequeueResult i);
       EvClose (ch_dequeueResult i);
       EvRunJob (jobber j) (Z.of_nat i)] in
    let counted := set_activeRoutines (atomic_AddInt32 (activeRoutines p) 1) p in
    let restored :=
      set_activeRoutines (atomic_AddInt32 (atomic_AddInt32 (activeRoutines p) 1) (-1)) p in
    match RunJob (jobber j) (Z.of_nat i) with
    | Returns => (Return tt, restored, started ++ [EvAddInt32 c_activeRoutines (-1)])
    | Panics v =>
        (Return tt, restored,
         started ++ [EvAddInt32 c_activeRoutines (-1); EvRecovered "doJobSafely" v])
    | NeverReturns => (Parked, counted, started)
    end.
Proof.
  intros Hopen.
  unfold doJobSafely, doJobSafely_deferred, catchPanic, defer, bind, AddInt32_activeRoutines,
    JobPool_dequeueJob, catchPanic, defer, bind, dequeueChannel_send, recv_answer,
    doJobSafely_run, call_RunJob, emit, ret, bind, modify, get.
  destruct p; simpl in *. rewrite Hopen. simpl.
  destruct (RunJob (jobber j) (Z.of_nat i)); reflexivity.
Qed.

Lemma transition_capacity (l : label) (s s' : System) :
  transition l s s' -> queueCapacity (this s') = queueCapacity (this s).
Proof.
  intros Ht. destruct Ht; simpl; try reflexivity.
  unfold pushed. destruct priority; reflexivity.
Qed.

Lemma run_capacity (schedule : list label) (s s' : System) :
  invariant s -> run schedule s = Some s' ->
  queueCapacity (this s') = queueCapacity (this s).
Proof.
  revert s. induction schedule as [|l rest IH]; intros s Hinv; simpl.
  - intros [= <-]. reflexivity.
  - destruct (step l s) as [s1|] eqn:Hstep; [|discriminate].
    apply (step_transition _ _ _ Hinv) in Hstep. intros Hrun.
    rewrite (IH s1 (transition_invariant _ _ _ Hinv Hstep) Hrun).
    eapply transition_capacity; eassumption.
Qed.

(** ** After [Shutdown] has closed the channels *)





(** ** Panics stop at [catchPanic] *)

Lemma catchPanic_never_panics {A : Type} (results : A) (err : option (error -> A))
    (functionName : string) (body : Go A) (p : JobPool) (r : string) :
  fst (fst (catchPanic results err functionName body p)) <> Panic r.
Proof.
  unfold catchPanic. destruct (body p) as [[[a| |] p1] t]; simpl; discriminate.
Qed.

Lemma dequeue_faulted (p : JobPool) (d : dequeueJob) (r : string) :
  In (EvRecovered "queueRoutineDequeue" r) (snd (queueRoutineDequeue d p)) ->
  priorityJobQueue p = [] /\ normalJobQueue p = [].
Proof.
  destruct (priorityJobQueue p) as [|j rest] eqn:Hp.
  - destruct (normalJobQueue p) as [|j rest] eqn:Hn; [auto|].
    rewrite (dequeue_normal p d j rest Hp Hn). simpl.
    intros [H|[H|[H|[]]]]; discriminate.
  - rewrite (dequeue_priority p d j rest Hp). simpl.
    intros [H|[H|[H|[]]]]; discriminate.
Qed.

(** ** A job routine parked in the receive of [dequeueJob] *)

Lemma step_jobs (l : label) (s s' : System) :
  step l s = Some s' ->
  jobs s' = jobs s
  \/ exists k w w',
       jobs s !! k = Some w /\ w <> w_dequeue_recv /\ jobs s' = <[k := w']> (jobs s).
Proof.
  destruct l; simpl;
    unfold step_QueueJob, step_queue_wake, step_job_wake, step_job_shutdown,
      step_job_dequeue, step_job_done, step_Shutdown_call, step_Shutdown_send,
      step_Shutdown_recv, step_Shutdown_Wait;
    repeat match goal with
    | |- context [match ?x with _ => _ end] => destruct x eqn:?; try discriminate
    end;
    intros [= <-]; simpl; auto;
    right; eexists _, _, _; (split; [eassumption|split; [discriminate|reflexivity]]).
Qed.

Lemma step_keeps_parked (l : label) (s s' : System) (i : nat) :
  step l s = Some s' ->
  jobs s !! i = Some w_dequeue_recv ->
  jobs s' !! i = Some w_dequeue_recv.
Proof.
  intros Hstep Hi. destruct (step_jobs l s s' Hstep) as [->|(k & w & w' & Hk & Hw & ->)].
  - assumption.
  - rewrite list_lookup_insert_ne; [assumption|]. intros ->. congruence.
Qed.

Lemma run_keeps_parked (schedule : list label) (s s' : System) (i : nat) :
  run schedule s = Some s' ->
  jobs s !! i = Some w_dequeue_recv ->
  jobs s' !! i = Some w_dequeue_recv.
Proof.
  revert s. induction schedule as [|l rest IH]; intros s; simpl.
  - intros [= <-]. auto.
  - destruct (step l s) as [s1|] eqn:Hstep; [|discriminate].
    intros Hrun Hi. apply (IH s1 Hrun). eapply step_keeps_parked; eassumption.
Qed.

(** * The pool's specification, claim by claim *)

(** C1: when [queuedJobs] equals the capacity, a [QueueJob] call is answered
    with the error "Job Pool At Capacity"; the two queues, the counter and
    the rest of the pool are as before, and [QueuedJobs] reads the same
    value as before the call. *)
Theorem QueueJob_at_capacity (s : System) (c : nat) (jober : Jobber) (priority : bool) :
  int32 (queuedJobs (this s)) ->
  queue s = q_select ->
  closed (queueChannel (this s)) = false ->
  calls s !! c = Some (call_send jober priority) ->
  queuedJobs (this s) = queueCapacity (this s) ->
  queueRoutineEnqueue (mkQueueJob jober priority c) (this s)
    = (Return tt, this s,
       [EvAddInt32 c_queuedJobs 0;
        EvSend (ch_queueResult c) (v_error (Some at_capacity))])
  /\ exists s',
       step (l_QueueJob c) s = Some s'
       /\ calls s' !! c = Some (call_returned (Some at_capacity))
       /\ this s' = this s
       /\ priorityJobQueue (this s') = priorityJobQueue (this s)
       /\ normalJobQueue (this s') = normalJobQueue (this s)
       /\ queuedJobs (this s') = queuedJobs (this s)
       /\ QueuedJobs (this s') = QueuedJobs (this s)
       /\ QueuedJobs (this s') = queueCapacity (this s).
Proof.
  intros Hint Hq Hopen Hc Hfull.
  split; [apply (enqueue_full (this s) (mkQueueJob jober priority c)); assumption|].
  eexists. split.
  - simpl. unfold step_QueueJob. rewrite Hc, Hopen, Hq, enqueue_full by assumption.
    simpl sent_on_queueResult. rewrite Nat.eqb_refl, QueueJob_answered by assumption.
    reflexivity.
  - simpl. split.
    + apply list_lookup_insert_eq. eapply lookup_lt_Some; eassumption.
    + repeat split. unfold QueuedJobs, atomic_AddInt32.
      rewrite Z.add_0_r, wrap_int32_id by assumption. assumption.
Qed.

Lemma QueueJob_at_capacity_witness :
  exists s',
    step (l_QueueJob 0) (system_of full_pool [w_select] [call_send (job "B") true]) = Some s'
    /\ calls s' !! O = Some (call_returned (Some at_capacity))
    /\ this s' = full_pool.
Proof.
  destruct (QueueJob_at_capacity
              (system_of full_pool [w_select] [call_send (job "B") true])
              0 (job "B") true) as (_ & s' & Hstep & Hcall & Hthis & _).
  - vm_compute. split; discriminate.
  - reflexivity.
  - reflexivity.
  - reflexivity.
  - reflexivity.
  - exists s'. repeat split; assumption.
Defined.

(** ** Running a schedule step by step *)

Lemma run_step (l : label) (rest : list label) (s s1 : System) (P : System -> Prop) :
  invariant s ->
  transition l s s1 ->
  (invariant s1 -> exists s', run rest s1 = Some s' /\ P s') ->
  exists s', run (l :: rest) s = Some s' /\ P s'.
Proof.
  intros Hinv Ht Hrest. simpl.
  rewrite (transition_step l s s1 Hinv Ht).
  apply Hrest. eapply transition_invariant; eassumption.
Qed.

Ltac side := simpl; first [reflexivity | assumption | lia | eassumption].

Ltac normalise_state H :=
  match goal with
  | |- exists s', run _ ?S = Some s' /\ _ =>
      let S' := eval cbv in S in change S with S' in H |- *
  end.

Ltac take_step :=
  match goal with
  | H : invariant ?S |- exists s', run _ ?S = Some s' /\ _ =>
      eapply (run_step _ _ _ _ _ H);
      [ first
          [ solve [eapply t_QueueJob_accepted; side]
          | solve [eapply t_QueueJob_full; side]
          | solve [eapply t_QueueJob_closed; side]
          | solve [eapply t_job_wake; side]
          | solve [eapply t_job_dequeue_priority; side]
          | solve [eapply t_job_dequeue_normal; side]
          | solve [eapply t_job_dequeue_closed; side]
          | solve [eapply t_job_done_returns; side]
          | solve [eapply t_job_done_panics; side]
          | solve [eapply t_job_shutdown; side]
          | solve [eapply t_Shutdown_call; side]
          | solve [eapply t_Shutdown_send; side]
          | solve [eapply t_Shutdown_recv; side]
          | solve [eapply t_Shutdown_Wait; side] ]
      | clear H; intros H; normalise_state H ]
  end.

Ltac end_run :=
  eexists; split; [reflexivity|].

Lemma submit_then_drain_order (J1 J2 J3 : Jobber) (capacity : Z) :
  3 <= capacity <= max_int32 ->
  RunJob J1 0 <> NeverReturns ->
  RunJob J2 0 <> NeverReturns ->
  RunJob J3 0 <> NeverReturns ->
  exists s0 s',
    New 1 capacity [(J1, false); (J2, true); (J3, false)] = Some s0
    /\ run submit_then_drain s0 = Some s'
    /\ started_by 0 (log s') = [J2; J1; J3].
Proof.
  intros Hcap H1 H2 H3.
  destruct (New 1 capacity [(J1, false); (J2, true); (J3, false)]) as [s0|] eqn:HNew.
  2: { unfold New, New_JobPool in HNew.
       destruct (capacity <? 0) eqn:Hneg; [apply Z.ltb_lt in Hneg; lia|discriminate]. }
  pose proof (New_invariant _ _ _ _ (proj2 Hcap) HNew) as Hinv.
  unfold New, New_JobPool in HNew.
  destruct (capacity <? 0) eqn:Hneg; [discriminate|]. injection HNew as <-.
  eexists. 
  cut (exists s', run submit_then_drain
     {|
      this :=
        {|
          priorityJobQueue := [];
          normalJobQueue := [];
          queueChannel := make_chan 0;
          dequeueChannel := make_chan 0;
          shutdownQueueChannel := make_chan 0;
          jobChannel := make_chan capacity;
          shutdownJobChannel := make_chan 0;
          shutdownWaitGroup := Z.of_nat (Z.to_nat 1);
          queuedJobs := 0;
          activeRoutines := 0;
          queueCapacity := capacity
        |};
      queue := q_select;
      jobs := replicate (Z.to_nat 1) w_select;
      calls :=
        map (λ c : Jobber * bool, call_send (fst c) (snd c))
          [(J1, false); (J2, true); (J3, false)];
      shutdown := s_idle;
      log := []
    |} = Some s' /\ started_by 0 (log s') = [J2; J1; J3]).
  { intros (s' & Hr & Hs). exists s'. auto. }
  unfold submit_then_drain, drain. simpl app. normalise_state Hinv.
  destruct (RunJob J1 0) eqn:E1; [| |contradiction];
  destruct (RunJob J2 0) eqn:E2; try contradiction;
  destruct (RunJob J3 0) eqn:E3; try contradiction.
  all: do 12 take_step; end_run; reflexivity.
Qed.

(** C2: a dequeue hands out the front of the priority queue when that queue
    is not empty and the front of the normal queue otherwise, removes it
    from its queue and takes one off [queuedJobs]; and after [QueueJob] of
    J1 (normal), J2 (priority), J3 (normal) in this order, a single job
    routine that drains the pool calls [RunJob] of J2, J1, J3 in this
    order. *)
Theorem dequeue_priority_first (p : JobPool) (d : dequeueJob)
    (J1 J2 J3 : Jobber) (capacity : Z) :
  min_int32 < queuedJobs p <= max_int32 ->
  3 <= capacity <= max_int32 ->
  RunJob J1 0 <> NeverReturns ->
  RunJob J2 0 <> NeverReturns ->
  RunJob J3 0 <> NeverReturns ->
  let result := queueRoutineDequeue d p in
  let p' := snd (fst result) in
  let handed := sent_on_dequeueResult (dequeueResultChannel d) (snd result) in
  (forall j rest,
      priorityJobQueue p = j :: rest ->
      handed = Some j
      /\ priorityJobQueue p' = rest
      /\ normalJobQueue p' = normalJobQueue p
      /\ queuedJobs p' = queuedJobs p - 1)
  /\ (forall j rest,
        priorityJobQueue p = [] ->
        normalJobQueue p = j :: rest ->
        handed = Some j
        /\ priorityJobQueue p' = []
        /\ normalJobQueue p' = rest
        /\ queuedJobs p' = queuedJobs p - 1)
  /\ exists s0 s',
       New 1 capacity [(J1, false); (J2, true); (J3, false)] = Some s0
       /\ run submit_then_drain s0 = Some s'
       /\ started_by 0 (log s') = [J2; J1; J3].
Proof.
  intros Hq Hcap H1 H2 H3 result p' handed.
  assert (Hdec : atomic_AddInt32 (queuedJobs p) (-1) = queuedJobs p - 1).
  { unfold atomic_AddInt32. apply wrap_int32_id.
    unfold int32, min_int32, max_int32 in *. lia. }
  split; [|split].
  - intros j rest Hp. subst result p' handed.
    rewrite (dequeue_priority p d j rest Hp). simpl.
    rewrite Nat.eqb_refl, Hdec. destruct p; auto.
  - intros j rest Hp Hn. subst result p' handed.
    rewrite (dequeue_normal p d j rest Hp Hn). simpl.
    rewrite Nat.eqb_refl, Hdec. destruct p; simpl in *; auto.
  - apply submit_then_drain_order; assumption.
Qed.

Lemma dequeue_priority_first_witness :
  sent_on_dequeueResult 0 (snd (queueRoutineDequeue (mkDequeueJob 0) full_pool))
    = Some (mkQueueJob (job "A") false 0)
  /\ exists s0 s',
       New 1 3 [(job "J1", false); (job "J2", true); (job "J3", false)] = Some s0
       /\ run submit_then_drain s0 = Some s'
       /\ started_by 0 (log s') = [job "J2"; job "J1"; job "J3"].
Proof.
  destruct (dequeue_priority_first full_pool (mkDequeueJob 0)
              (job "J1") (job "J2") (job "J3") 3) as (_ & Hnormal & Hrun).
  - vm_compute. split; [reflexivity|discriminate].
  - vm_compute. split; discriminate.
  - discriminate.
  - discriminate.
  - discriminate.
  - split; [|exact Hrun].
    apply (Hnormal (mkQueueJob (job "A") false 0) []); reflexivity.
Defined.

(** C3: the pool made by [New] satisfies, and the queue routine's enqueue
    and dequeue keep, the invariant that the lengths of the two queues add
    up to [queuedJobs] and that 0 <= queuedJobs <= queueCapacity; it holds
    in every state the pool can reach; and after the queue routine has
    served a series of enqueue requests on a new pool, [QueuedJobs] reads
    the number of requests it answered with nil. *)
Theorem queue_invariant_kept (numberOfRoutines capacity : Z) (p0 p : JobPool)
    (j : queueJob) (d : dequeueJob) (js : list queueJob)
    (submitted : list (Jobber * bool)) (s0 s : System) :
  capacity <= max_int32 ->
  New_JobPool numberOfRoutines capacity = Some p0 ->
  queue_invariant p ->
  New numberOfRoutines capacity submitted = Some s0 ->
  reachable s0 s ->
  queue_invariant p0
  /\ queue_invariant (snd (fst (queueRoutineEnqueue j p)))
  /\ queue_invariant (snd (fst (queueRoutineDequeue d p)))
  /\ queue_invariant (this s)
  /\ QueuedJobs (snd (enqueue_all js p0))
     = Z.of_nat (length (List.filter accepted (fst (enqueue_all js p0)))).
Proof.
  intros Hmax HNew Hp HNews Hreach.
  pose proof (New_JobPool_queue_invariant _ _ _ Hmax HNew) as Hp0.
  split; [assumption|]. split; [|split; [|split]].
  - apply enqueue_keeps_queue_invariant; assumption.
  - apply dequeue_keeps_queue_invariant; assumption.
  - apply (inv_queue s).
    apply (reachable_invariant s0 s); [|assumption].
    eapply New_invariant; eassumption.
  - destruct (enqueue_all_counts js p0 Hp0) as (Hinv & Hcount & _).
    unfold QueuedJobs, atomic_AddInt32.
    rewrite Z.add_0_r, wrap_int32_id by (apply queue_invariant_int32; assumption).
    rewrite Hcount.
    unfold New_JobPool in HNew. destruct (capacity <? 0); [discriminate|].
    injection HNew as <-. simpl. reflexivity.
Qed.

Lemma queue_invariant_kept_witness :
  queue_invariant (snd (fst (queueRoutineEnqueue (mkQueueJob (job "B") true 1) full_pool)))
  /\ queue_invariant (snd (fst (queueRoutineDequeue (mkDequeueJob 0) full_pool)))
  /\ QueuedJobs (snd (enqueue_all [mkQueueJob (job "A") false 0; mkQueueJob (job "B") true 1]
                        empty_pool)) = 1.
Proof.
  destruct (queue_invariant_kept 1 1
              empty_pool
              full_pool (mkQueueJob (job "B") true 1) (mkDequeueJob 0)
              [mkQueueJob (job "A") false 0; mkQueueJob (job "B") true 1]
              [(job "A", false)]
              (system_of empty_pool [w_select] [call_send (job "A") false])
              (system_of empty_pool [w_select] [call_send (job "A") false]))
    as (_ & He & Hd & _ & Hk).
  - vm_compute. discriminate.
  - reflexivity.
  - unfold queue_invariant. simpl. unfold max_int32. lia.
  - reflexivity.
  - exists []. reflexivity.
  - split; [exact He|]. split; [exact Hd|]. exact Hk.
Defined.

(** C4: an enqueue request that finds [queuedJobs] below the capacity puts
    the job at the back of the priority queue when its flag is set and at
    the back of the normal queue otherwise, adds one to [queuedJobs],
    answers the caller with nil and then sends one "Wake Up" on
    [jobChannel], in this order, without parking; the caller's [QueueJob]
    returns nil. *)
Theorem enqueue_below_capacity (s : System) (c : nat) (jober : Jobber) (priority : bool) :
  invariant s ->
  queue s = q_select ->
  closed (queueChannel (this s)) = false ->
  calls s !! c = Some (call_send jober priority) ->
  queuedJobs (this s) < queueCapacity (this s) ->
  let j := mkQueueJob jober priority c in
  queueRoutineEnqueue j (this s)
    = (Return tt,
       set_jobChannel (chan_push "Wake Up"%string (jobChannel (this s)))
         (set_queuedJobs (queuedJobs (this s) + 1) (pushed j (this s))),
       [EvAddInt32 c_queuedJobs 0;
        EvPushBack priority j;
        EvAddInt32 c_queuedJobs 1;
        EvSend (ch_queueResult c) (v_error None);
        EvSend ch_jobChannel (v_string "Wake Up")])
  /\ exists s',
       step (l_QueueJob c) s = Some s'
       /\ priorityJobQueue (this s')
          = (if priority then priorityJobQueue (this s) ++ [j] else priorityJobQueue (this s))
       /\ normalJobQueue (this s')
          = (if priority then normalJobQueue (this s) else normalJobQueue (this s) ++ [j])
       /\ queuedJobs (this s') = queuedJobs (this s) + 1
       /\ calls s' !! c = Some (call_returned None)
       /\ buf (jobChannel (this s')) = buf (jobChannel (this s)) ++ ["Wake Up"%string]
       /\ queue s' = q_select
       /\ queueRoutine_events (drop (length (log s)) (log s'))
          = [EvAddInt32 c_queuedJobs 0;
               EvPushBack priority j;
               EvAddInt32 c_queuedJobs 1;
               EvSend (ch_queueResult c) (v_error None);
            EvSend ch_jobChannel (v_string "Wake Up")].
Proof.
  intros Hinv Hq Hopen Hc Hlt j.
  pose proof (inv_queue s Hinv) as Hqi.
  pose proof (queue_invariant_int32 _ Hqi) as Hint.
  destruct Hqi as (Hlen & Hb & Hmax).
  split.
  - apply (enqueue_room (this s) j);
      auto using invariant_room, invariant_jobChannel_open; lia.
  - eexists. split.
    + apply (transition_step _ _ _ Hinv). eapply t_QueueJob_accepted; eassumption.
    + simpl. unfold pushed. simpl.
      split; [destruct priority; reflexivity|].
      split; [destruct priority; reflexivity|].
      split; [reflexivity|].
      split; [apply list_lookup_insert_eq; eapply lookup_lt_Some; eassumption|].
      split; [destruct priority; reflexivity|].
      split; [reflexivity|].
      rewrite drop_app_length. reflexivity.
Qed.

Lemma enqueue_below_capacity_witness :
  exists s',
    step (l_QueueJob 0) (system_of empty_pool [w_select] [call_send (job "A") false]) = Some s'
    /\ normalJobQueue (this s') = [mkQueueJob (job "A") false 0]
    /\ queuedJobs (this s') = 1
    /\ calls s' !! O = Some (call_returned None)
    /\ buf (jobChannel (this s')) = ["Wake Up"%string].
Proof.
  destruct (enqueue_below_capacity
              (system_of empty_pool [w_select] [call_send (job "A") false])
              0 (job "A") false)
    as (_ & s' & Hstep & _ & Hn & Hq & Hc & Hb & _).
  - apply (New_invariant 1 1 [(job "A", false)]); [vm_compute; discriminate|reflexivity].
  - reflexivity.
  - reflexivity.
  - reflexivity.
  - simpl. lia.
  - exists s'. repeat split; assumption.
Defined.




(** C6: [New] makes [jobChannel] with a buffer of [queueCapacity] places;
    in every state the pool can reach the buffer has that capacity and holds
    at most [queuedJobs] wake-ups, [queuedJobs] is at most the capacity, and
    the queue routine is never parked in the send of "Wake Up": whenever an
    enqueue finds [queuedJobs] below the capacity, the buffer has room. *)
Theorem wake_never_blocks (numberOfRoutines capacity : Z)
    (submitted : list (Jobber * bool)) (s0 s : System) :
  capacity <= max_int32 ->
  New numberOfRoutines capacity submitted = Some s0 ->
  reachable s0 s ->
  cap (jobChannel (this s0)) = capacity
  /\ buf (jobChannel (this s0)) = []
  /\ cap (jobChannel (this s)) = capacity
  /\ Z.of_nat (length (buf (jobChannel (this s)))) <= queuedJobs (this s)
  /\ queuedJobs (this s) <= capacity
  /\ queue s <> q_jobChannel_send
  /\ (queuedJobs (this s) < capacity -> chan_has_room (jobChannel (this s)) = true)
  /\ forall j,
       closed (jobChannel (this s)) = false ->
       fst (fst (queueRoutineEnqueue j (this s))) = Return tt.
Proof.
  intros Hmax HNew Hreach.
  pose proof (New_invariant _ _ _ _ Hmax HNew) as Hinv0.
  pose proof (reachable_invariant _ _ Hinv0 Hreach) as Hinv.
  assert (Hcap0 : cap (jobChannel (this s0)) = capacity
                  /\ buf (jobChannel (this s0)) = []
                  /\ queueCapacity (this s0) = capacity).
  { unfold New, New_JobPool in HNew. destruct (capacity <? 0); [discriminate|].
    injection HNew as <-. repeat split. }
  destruct Hcap0 as (Hc0 & Hb0 & Hq0).
  assert (Hcapacity : queueCapacity (this s) = capacity).
  { destruct Hreach as [schedule Hrun].
    rewrite (run_capacity _ _ _ Hinv0 Hrun). assumption. }
  pose proof (inv_wake s Hinv) as Hwake.
  destruct (inv_queue s Hinv) as (Hlen & Hb & _).
  split; [assumption|]. split; [assumption|].
  split; [rewrite (inv_cap s Hinv); assumption|].
  split; [lia|]. split; [lia|]. split; [|split].
  - destruct (handshake_cases s (inv_handshake s Hinv))
      as [(-> & _)|[(-> & _)|[(-> & _)|(-> & _)]]]; discriminate.
  - intros Hlt. apply invariant_room; [assumption|lia].
  - intros j Hopen.
    pose proof (queue_invariant_int32 _ (inv_queue s Hinv)) as Hint.
    destruct (Z.eq_dec (queuedJobs (this s)) (queueCapacity (this s))) as [Hfull|Hne].
    + rewrite enqueue_full by assumption. reflexivity.
    + pose proof (inv_queue s Hinv) as (_ & _ & Hm).
      assert (Hlt : queuedJobs (this s) < queueCapacity (this s)) by lia.
      rewrite (enqueue_room (this s) j Hint ltac:(lia) Hne Hopen
                 (invariant_room s Hinv Hlt)).
      reflexivity.
Qed.

Lemma wake_never_blocks_witness :
  let s0 := system_of empty_pool [w_select] [call_send (job "A") false] in
  let s := state_after [l_QueueJob 0] s0 in
  cap (jobChannel (this s)) = 1
  /\ Z.of_nat (length (buf (jobChannel (this s)))) <= queuedJobs (this s)
  /\ queue s <> q_jobChannel_send.
Proof.
  destruct (wake_never_blocks 1 1 [(job "A", false)]
              (system_of empty_pool [w_select] [call_send (job "A") false])
              (state_after [l_QueueJob 0]
                 (system_of empty_pool [w_select] [call_send (job "A") false])))
    as (_ & _ & Hcap & Hbuf & _ & Hq & _).
  - vm_compute. discriminate.
  - reflexivity.
  - exists [l_QueueJob 0]. reflexivity.
  - split; [exact Hcap|]. split; [exact Hbuf|exact Hq].
Defined.




(** C8, counterexample: a dequeue request on a pool with two empty queues
    faults in the queue routine before anything is sent on the result
    channel; the job routine that asked is then parked in its receive: its
    [dequeueJob] does not return the empty value (nil, nil), it does not
    return at all, and the job routine takes no further step. *)
Lemma faulted_dequeue_gives_no_value :
  let p := set_activeRoutines 1 empty_pool in
  let result := queueRoutineDequeue (mkDequeueJob 0) p in
  let answer := sent_on_dequeueResult 0 (snd result) in
  snd result = [EvRecovered "queueRoutineDequeue" nil_dereference]
  /\ answer = None
  /\ fst (fst (JobPool_dequeueJob 0 answer p)) = Parked
  /\ fst (fst (JobPool_dequeueJob 0 answer p)) <> Return (None, None)
  /\ exists s',
       step (l_job_dequeue 0) (system_of p [w_dequeue_send] []) = Some s'
       /\ jobs s' = [w_dequeue_recv]
       /\ forall i,
            step (l_job_wake i) s' = None
            /\ step (l_job_shutdown i) s' = None
            /\ step (l_job_dequeue i) s' = None
            /\ step (l_job_done i) s' = None.
Proof.
  split; [reflexivity|]. split; [reflexivity|]. split; [reflexivity|].
  split; [discriminate|].
  eexists. split; [vm_compute; reflexivity|]. split; [reflexivity|].
  intros i. destruct i as [|i]; [repeat split|destruct i; repeat split].
Qed.

(** C8, as the code has it: when the processing of a dequeue request faults
    in the queue routine, the panic is recovered there, the pool is left as
    it was and nothing is sent on the result channel, so that the job
    routine that asked receives no value, neither a job nor an empty one:
    its [dequeueJob] stays parked in the receive.  No panic leaves
    [queueRoutineEnqueue], [queueRoutineDequeue], [dequeueJob] or
    [doJobSafely]. *)
Theorem faulted_dequeue_parks_caller (p : JobPool) (i : nat) (r : string) :
  closed (dequeueChannel p) = false ->
  In (EvRecovered "queueRoutineDequeue" r) (snd (queueRoutineDequeue (mkDequeueJob i) p)) ->
  let result := queueRoutineDequeue (mkDequeueJob i) p in
  let answer := sent_on_dequeueResult i (snd result) in
  fst result = (Return tt, p)
  /\ answer = None
  /\ JobPool_dequeueJob i answer (snd (fst result))
     = (Parked, p, [EvSend ch_dequeueChannel v_request])
  /\ (forall j q r', fst (fst (queueRoutineEnqueue j q)) <> Panic r')
  /\ (forall d q, fst (fst (queueRoutineDequeue d q)) = Return tt)
  /\ (forall k a q r', fst (fst (JobPool_dequeueJob k a q)) <> Panic r')
  /\ (forall k a q r', fst (fst (doJobSafely k a q)) <> Panic r').
Proof.
  intros Hopen Hfault result answer. subst answer result.
  destruct (dequeue_faulted p _ r Hfault) as (Hp & Hn).
  rewrite (dequeue_empty p _ Hp Hn). simpl.
  split; [reflexivity|]. split; [reflexivity|].
  split; [apply dequeueJob_unanswered; assumption|].
  split; [intros j q r'; apply enqueue_never_panics|].
  split; [intros d q; apply dequeue_returns|].
  split; intros k a q r'; apply catchPanic_never_panics.
Qed.

Lemma faulted_dequeue_parks_caller_witness :
  JobPool_dequeueJob 0
    (sent_on_dequeueResult 0 (snd (queueRoutineDequeue (mkDequeueJob 0) empty_pool)))
    (snd (fst (queueRoutineDequeue (mkDequeueJob 0) empty_pool)))
  = (Parked, empty_pool, [EvSend ch_dequeueChannel v_request]).
Proof.
  destruct (faulted_dequeue_parks_caller empty_pool 0 nil_dereference)
    as (_ & _ & Hparked & _).
  - reflexivity.
  - simpl. left. reflexivity.
  - exact Hparked.
Defined.

(** C9: when the [RunJob] of a job panics, the panic is recovered in
    [doJobSafely], after the deferred decrement has run, so that
    [activeRoutines] is back at the value it had before the job routine
    took the wake-up; [doJobSafely] returns, the job routine is back in its
    [select], the rest of the pool and the other routines are as they were,
    and the job routine takes the next wake-up. *)
Theorem RunJob_panic_is_caught (s : System) (i : nat) (j : queueJob) (v : string)
    (p : JobPool) :
  jobs s !! i = Some (w_RunJob j) ->
  RunJob (jobber j) (Z.of_nat i) = Panics v ->
  int32 (activeRoutines p) ->
  closed (dequeueChannel p) = false ->
  doJobSafely i (Some j) p
    = (Return tt, p,
       [EvAddInt32 c_activeRoutines 1;
        EvSend ch_dequeueChannel v_request;
        EvRecv (ch_dequeueResult i);
        EvClose (ch_dequeueResult i);
        EvRunJob (jobber j) (Z.of_nat i);
        EvAddInt32 c_activeRoutines (-1);
        EvRecovered "doJobSafely" v])
  /\ exists s',
       step (l_job_done i) s = Some s'
       /\ jobs s' = <[i := w_select]> (jobs s)
       /\ jobs s' !! i = Some w_select
       /\ this s'
          = set_activeRoutines (atomic_AddInt32 (activeRoutines (this s)) (-1)) (this s)
       /\ queue s' = queue s
       /\ calls s' = calls s
       /\ shutdown s' = shutdown s
       /\ log s' = log s ++ tag (g_jobRoutine i)
                     [EvAddInt32 c_activeRoutines (-1); EvRecovered "doJobSafely" v]
       /\ (buf (jobChannel (this s)) <> [] -> step (l_job_wake i) s' <> None).
Proof.
  intros Hi Hpanic Hint Hopen.
  assert (Hlt : (i < length (jobs s))%nat) by (eapply lookup_lt_Some; eassumption).
  split.
  - rewrite (doJobSafely_answered i j p Hopen), Hpanic. simpl.
    unfold atomic_AddInt32. rewrite wrap_int32_add.
    replace (activeRoutines p + 1 + -1) with (activeRoutines p) by lia.
    rewrite (wrap_int32_id _ Hint), set_activeRoutines_same. reflexivity.
  - eexists. split.
    + simpl. unfold step_job_done. rewrite Hi, doJobSafely_done, Hpanic. reflexivity.
    + simpl. repeat split.
      * apply list_lookup_insert_eq. assumption.
      * intros Hbuf. unfold step_job_wake. simpl.
        rewrite list_lookup_insert_eq by assumption.
        unfold bind, jobChannel_recv. simpl.
        destruct (buf (jobChannel (this s))); [contradiction|discriminate].
Qed.

Lemma RunJob_panic_is_caught_witness :
  doJobSafely 0 (Some (mkQueueJob failing_job false 0)) full_pool
    = (Return tt, full_pool,
       [EvAddInt32 c_activeRoutines 1;
        EvSend ch_dequeueChannel v_request;
        EvRecv (ch_dequeueResult 0);
        EvClose (ch_dequeueResult 0);
        EvRunJob failing_job 0;
        EvAddInt32 c_activeRoutines (-1);
        EvRecovered "doJobSafely" "job failed"])
  /\ exists s',
       step (l_job_done 0)
         (system_of (set_activeRoutines 1 empty_pool)
            [w_RunJob (mkQueueJob failing_job false 0)] []) = Some s'
       /\ jobs s' = [w_select]
       /\ this s' = empty_pool.
Proof.
  destruct (RunJob_panic_is_caught
              (system_of (set_activeRoutines 1 empty_pool)
                 [w_RunJob (mkQueueJob failing_job false 0)] [])
              0 (mkQueueJob failing_job false 0) "job failed" full_pool)
    as (Hfun & s' & Hstep & Hjobs & _ & Hthis & _).
  - reflexivity.
  - reflexivity.
  - vm_compute. split; discriminate.
  - reflexivity.
  - split; [exact Hfun|]. exists s'. split; [exact Hstep|].
    split; [exact Hjobs|]. rewrite Hthis. reflexivity.
Defined.

(** C10: a dequeue request that the queue routine processes while both
    queues are empty panics in the removal of the front of the normal
    queue; the panic is recovered in [queueRoutineDequeue], the queue
    routine is back in its [select], the queues, [queuedJobs] and the rest
    of the pool are as before, nothing is sent on the result channel, and
    the job routine that asked stays parked in the receive of [dequeueJob]
    on every schedule. *)
Theorem dequeue_on_empty_queues (s : System) (i : nat) :
  jobs s !! i = Some w_dequeue_send ->
  queue s = q_select ->
  closed (dequeueChannel (this s)) = false ->
  priorityJobQueue (this s) = [] ->
  normalJobQueue (this s) = [] ->
  queueRoutineDequeue (mkDequeueJob i) (this s)
    = (Return tt, this s, [EvRecovered "queueRoutineDequeue" nil_dereference])
  /\ JobPool_dequeueJob i None (this s)
     = (Parked, this s, [EvSend ch_dequeueChannel v_request])
  /\ exists s',
       step (l_job_dequeue i) s = Some s'
       /\ this s' = this s
       /\ queue s' = q_select
       /\ queueRoutine_events (drop (length (log s)) (log s'))
          = [EvRecovered "queueRoutineDequeue" nil_dereference]
       /\ jobs s' !! i = Some w_dequeue_recv
       /\ forall schedule s'',
            run schedule s' = Some s'' -> jobs s'' !! i = Some w_dequeue_recv.
Proof.
  intros Hi Hq Hopen Hp Hn.
  assert (Hlt : (i < length (jobs s))%nat) by (eapply lookup_lt_Some; eassumption).
  split; [apply dequeue_empty; assumption|].
  split; [apply dequeueJob_unanswered; assumption|].
  eexists. split.
  - simpl. unfold step_job_dequeue.
    rewrite Hi, Hopen, Hq, (dequeue_empty _ _ Hp Hn). simpl sent_on_dequeueResult.
    rewrite dequeueJob_unanswered by assumption. reflexivity.
  - simpl. split; [reflexivity|]. split; [reflexivity|].
    split; [rewrite drop_app_length; reflexivity|].
    split; [apply list_lookup_insert_eq; assumption|].
    intros schedule s'' Hrun. apply (run_keeps_parked _ _ _ _ Hrun).
    simpl. apply list_lookup_insert_eq. assumption.
Qed.

Lemma dequeue_on_empty_queues_witness :
  exists s',
    step (l_job_dequeue 0)
      (system_of (set_activeRoutines 1 empty_pool) [w_dequeue_send] []) = Some s'
    /\ this s' = set_activeRoutines 1 empty_pool
    /\ jobs s' !! O = Some w_dequeue_recv.
Proof.
  destruct (dequeue_on_empty_queues
              (system_of (set_activeRoutines 1 empty_pool) [w_dequeue_send] []) 0)
    as (_ & _ & s' & Hstep & Hthis & _ & _ & Hparked & _).
  - reflexivity.
  - reflexivity.
  - reflexivity.
  - reflexivity.
  - reflexivity.
  - exists s'. split; [exact Hstep|]. split; [exact Hthis|exact Hparked].
Defined.

(** * Further properties of the pool *)

(** ** Priority first, and first in first out *)

Lemma enqueue_all_accepted (js : list queueJob) (p : JobPool) :
  queue_invariant p ->
  queuedJobs p + Z.of_nat (length js) <= queueCapacity p ->
  fst (enqueue_all js p) = map (fun _ => Some None) js
  /\ priorityJobQueue (snd (enqueue_all js p))
     = priorityJobQueue p ++ List.filter Priority js
  /\ normalJobQueue (snd (enqueue_all js p))
     = normalJobQueue p ++ List.filter (fun j => negb (Priority j)) js
  /\ queuedJobs (snd (enqueue_all js p)) = queuedJobs p + Z.of_nat (length js)
  /\ queue_invariant (snd (enqueue_all js p)).
Proof.
  revert p. induction js as [|j rest IH]; intros p Hinv Hroom; simpl.
  - rewrite !app_nil_r. repeat split; try apply Hinv. lia.
  - pose proof (queue_invariant_int32 p Hinv) as Hq.
    pose proof (enqueue_keeps_queue_invariant p j Hinv) as Hinv1.
    simpl length in Hroom.
    assert (Hne : queuedJobs p <> queueCapacity p) by lia.
    destruct (enqueue_accepts p j Hq Hne) as (o & c & t & Heq & Hsent & _).
    rewrite Heq in *. simpl in Hinv1.
    assert (Hq1 : atomic_AddInt32 (queuedJobs p) 1 = queuedJobs p + 1).
    { unfold atomic_AddInt32. apply wrap_int32_id.
      destruct Hinv as (_ & Hb & Hcap). unfold int32, min_int32, max_int32 in *. lia. }
    match type of Hinv1 with queue_invariant ?p1 =>
      assert (Hq' : queuedJobs p1 = queuedJobs p + 1) by exact Hq1;
      assert (Hc' : queueCapacity p1 = queueCapacity p)
        by (simpl; apply (pushed_other j p));
      assert (Hpq : priorityJobQueue p1
                    = priorityJobQueue p ++ (if Priority j then [j] else []))
        by (unfold pushed; destruct (Priority j); simpl; rewrite ?app_nil_r; reflexivity);
      assert (Hnq : normalJobQueue p1
                    = normalJobQueue p ++ (if Priority j then [] else [j]))
        by (unfold pushed; destruct (Priority j); simpl; rewrite ?app_nil_r; reflexivity);
      destruct (IH p1 Hinv1 ltac:(lia)) as (H1 & H2 & H3 & H4 & H5)
    end.
    destruct (enqueue_all rest _) as [answers p2]. simpl in *.
    rewrite Hsent, H1, H2, H3, H4, Hpq, Hnq, Hq'.
    split; [reflexivity|].
    split; [destruct (Priority j); simpl; rewrite <- app_assoc; reflexivity|].
    split; [destruct (Priority j); simpl; rewrite <- app_assoc; reflexivity|].
    split; [lia|assumption].
Qed.

Lemma dequeue_all_order (n i : nat) (p : JobPool) :
  queue_invariant p ->
  (n <= length (priorityJobQueue p ++ normalJobQueue p))%nat ->
  fst (dequeue_all n i p) = map Some (take n (priorityJobQueue p ++ normalJobQueue p))
  /\ priorityJobQueue (snd (dequeue_all n i p)) ++ normalJobQueue (snd (dequeue_all n i p))
     = drop n (priorityJobQueue p ++ normalJobQueue p)
  /\ queuedJobs (snd (dequeue_all n i p)) = queuedJobs p - Z.of_nat n
  /\ queue_invariant (snd (dequeue_all n i p)).
Proof.
  revert p. induction n as [|n IH]; intros p Hinv Hn.
  - simpl. repeat split; try apply Hinv. lia.
  - pose proof (dequeue_keeps_queue_invariant p (mkDequeueJob i) Hinv) as Hinv1.
    assert (Hdec : atomic_AddInt32 (queuedJobs p) (-1) = queuedJobs p - 1).
    { apply dequeue_counter. destruct Hinv as (Hlen & Hb & Hcap).
      rewrite length_app in Hn. unfold max_int32 in *. lia. }
    simpl dequeue_all.
    destruct (priorityJobQueue p) as [|j rest] eqn:Hp;
      [destruct (normalJobQueue p) as [|j rest] eqn:Hq|].
    + simpl in Hn. lia.
    + rewrite (dequeue_normal p _ j rest Hp Hq) in *. simpl in Hinv1.
      match type of Hinv1 with queue_invariant ?p1 =>
        assert (Hp1 : priorityJobQueue p1 = []) by (destruct p; simpl in *; assumption);
        assert (Hn1 : normalJobQueue p1 = rest) by (destruct p; reflexivity);
        assert (Hq1 : queuedJobs p1 = queuedJobs p - 1) by (destruct p; exact Hdec);
        destruct (IH p1 Hinv1) as (H1 & H2 & H3 & H4);
          [rewrite Hp1, Hn1; simpl in *; lia|]
      end.
      rewrite Hp1, Hn1 in H1, H2. rewrite Hq1 in H3.
      destruct (dequeue_all n i _) as [handed p2].
      cbn [fst snd sent_on_dequeueResult dequeueResultChannel] in *.
      rewrite Nat.eqb_refl. simpl. rewrite H1, H2, H3.
      repeat split; try apply H4. lia.
    + rewrite (dequeue_priority p _ j rest Hp) in *. simpl in Hinv1.
      match type of Hinv1 with queue_invariant ?p1 =>
        assert (Hp1 : priorityJobQueue p1 = rest) by (destruct p; reflexivity);
        assert (Hn1 : normalJobQueue p1 = normalJobQueue p) by (destruct p; reflexivity);
        assert (Hq1 : queuedJobs p1 = queuedJobs p - 1) by (destruct p; exact Hdec);
        destruct (IH p1 Hinv1) as (H1 & H2 & H3 & H4);
          [rewrite Hp1, Hn1; simpl in *; lia|]
      end.
      rewrite Hp1, Hn1 in H1, H2. rewrite Hq1 in H3.
      destruct (dequeue_all n i _) as [handed p2].
      cbn [fst snd sent_on_dequeueResult dequeueResultChannel] in *.
      rewrite Nat.eqb_refl. simpl. rewrite H1, H2, H3.
      repeat split; try apply H4. lia.
Qed.

(** X1: when the queue routine has accepted a series of jobs and then
    serves as many dequeue requests, it hands out the jobs queued with
    priority, in the order of their arrival, and then the other jobs, in
    the order of their arrival; the queues are empty afterwards and
    [QueuedJobs] reads 0. *)
Theorem drain_priority_then_fifo (numberOfRoutines capacity : Z) (p0 : JobPool)
    (js : list queueJob) (i : nat) :
  capacity <= max_int32 ->
  New_JobPool numberOfRoutines capacity = Some p0 ->
  Z.of_nat (length js) <= capacity ->
  let queued := snd (enqueue_all js p0) in
  let drained := dequeue_all (length js) i queued in
  fst (enqueue_all js p0) = map (fun _ => Some None) js
  /\ fst drained
     = map Some (List.filter Priority js ++ List.filter (fun j => negb (Priority j)) js)
  /\ priorityJobQueue (snd drained) = []
  /\ normalJobQueue (snd drained) = []
  /\ QueuedJobs (snd drained) = 0.
Proof.
  intros Hmax HNew Hlen queued drained.
  pose proof (New_JobPool_queue_invariant _ _ _ Hmax HNew) as Hinv0.
  assert (Hp0 : priorityJobQueue p0 = [] /\ normalJobQueue p0 = []
                /\ queuedJobs p0 = 0 /\ queueCapacity p0 = capacity).
  { unfold New_JobPool in HNew. destruct (capacity <? 0); [discriminate|].
    injection HNew as <-. repeat split. }
  destruct Hp0 as (Hpq0 & Hnq0 & Hq0 & Hc0).
  destruct (enqueue_all_accepted js p0 Hinv0 ltac:(lia)) as (Ha & Hpq & Hnq & Hq & Hinv1).
  fold queued in Hpq, Hnq, Hq, Hinv1.
  rewrite Hpq0 in Hpq. rewrite Hnq0 in Hnq. simpl in Hpq, Hnq.
  assert (Htotal : length (priorityJobQueue queued ++ normalJobQueue queued) = length js).
  { destruct Hinv1 as (Hl & _). rewrite length_app. lia. }
  destruct (dequeue_all_order (length js) i queued Hinv1 ltac:(lia))
    as (Hd & Hrest & Hqd & Hinvd).
  fold drained in Hd, Hrest, Hqd, Hinvd.
  rewrite <- Htotal in Hd at 1. rewrite firstn_all in Hd.
  rewrite <- Htotal in Hrest at 1. rewrite drop_all in Hrest.
  apply app_eq_nil in Hrest. destruct Hrest as (Hr1 & Hr2).
  split; [exact Ha|]. split; [rewrite Hd, Hpq, Hnq; reflexivity|].
  split; [assumption|]. split; [assumption|].
  unfold QueuedJobs, atomic_AddInt32. rewrite Z.add_0_r, Hqd, Hq, Hq0.
  replace (0 + Z.of_nat (length js) - Z.of_nat (length js)) with 0 by lia. reflexivity.
Qed.

Lemma drain_priority_then_fifo_witness :
  let A := mkQueueJob (job "A") false 0 in
  let B := mkQueueJob (job "B") true 1 in
  let C := mkQueueJob (job "C") false 2 in
  let D := mkQueueJob (job "D") true 3 in
  fst (dequeue_all 4 0 (snd (enqueue_all [A; B; C; D] (new_pool 2 4))))
  = [Some B; Some D; Some A; Some C].
Proof.
  destruct (drain_priority_then_fifo 2 4 (new_pool 2 4)
              [mkQueueJob (job "A") false 0; mkQueueJob (job "B") true 1;
               mkQueueJob (job "C") false 2; mkQueueJob (job "D") true 3] 0)
    as (_ & Hd & _).
  - vm_compute. discriminate.
  - reflexivity.
  - simpl. lia.
  - exact Hd.
Defined.

(** ** A full pool *)

Lemma enqueue_keeps_capacity (j : queueJob) (p : JobPool) :
  queueCapacity (snd (fst (queueRoutineEnqueue j p))) = queueCapacity p.
Proof.
  unfold queueRoutineEnqueue, catchPanic, bind, AddInt32_queuedJobs, get,
    send_result, emit, priorityJobQueue_PushBack, normalJobQueue_PushBack,
    jobChannel_send, modify, ret.
  destruct p as [pq nq c1 c2 c3 jc c5 wg q a capy]; simpl.
  destruct (atomic_AddInt32 q 0 =? capy); simpl; [reflexivity|].
  destruct (Priority j); simpl;
    destruct (closed jc); simpl; try reflexivity;
    destruct (chan_has_room jc); reflexivity.
Qed.

Lemma enqueue_all_rejected (js : list queueJob) (p : JobPool) :
  int32 (queuedJobs p) ->
  queuedJobs p = queueCapacity p ->
  enqueue_all js p = (map (fun _ => Some (Some at_capacity)) js, p).
Proof.
  intros Hint Hfull. induction js as [|j rest IH]; simpl; [reflexivity|].
  rewrite enqueue_full by assumption. rewrite IH. simpl.
  rewrite Nat.eqb_refl. reflexivity.
Qed.

Lemma enqueue_all_app (a b : list queueJob) (p : JobPool) :
  enqueue_all (a ++ b) p
  = (fst (enqueue_all a p) ++ fst (enqueue_all b (snd (enqueue_all a p))),
     snd (enqueue_all b (snd (enqueue_all a p)))).
Proof.
  revert p. induction a as [|j rest IH]; intros p; simpl.
  - destruct (enqueue_all b p); reflexivity.
  - destruct (queueRoutineEnqueue j p) as [[o p1] t].
    rewrite IH. destruct (enqueue_all rest p1) as [x p2]. simpl.
    reflexivity.
Qed.

(** X2: a new pool accepts the first [queueCapacity] jobs of a series of
    enqueue requests and answers every later one with "Job Pool At
    Capacity"; the queues then hold the accepted jobs and [QueuedJobs] reads
    their number. *)
Theorem enqueue_all_saturates (numberOfRoutines capacity : Z) (p0 : JobPool)
    (js : list queueJob) :
  capacity <= max_int32 ->
  New_JobPool numberOfRoutines capacity = Some p0 ->
  let k := Z.to_nat capacity in
  let answers := fst (enqueue_all js p0) in
  let p := snd (enqueue_all js p0) in
  answers = map (fun _ => Some None) (take k js)
            ++ map (fun _ => Some (Some at_capacity)) (drop k js)
  /\ priorityJobQueue p = List.filter Priority (take k js)
  /\ normalJobQueue p = List.filter (fun j => negb (Priority j)) (take k js)
  /\ QueuedJobs p = Z.min (Z.of_nat (length js)) capacity.
Proof.
  intros Hmax HNew k answers p. subst answers p.
  pose proof (New_JobPool_queue_invariant _ _ _ Hmax HNew) as Hinv0.
  assert (Hp0 : priorityJobQueue p0 = [] /\ normalJobQueue p0 = []
                /\ queuedJobs p0 = 0 /\ queueCapacity p0 = capacity /\ 0 <= capacity).
  { unfold New_JobPool in HNew. destruct (capacity <? 0) eqn:Hneg; [discriminate|].
    apply Z.ltb_ge in Hneg. injection HNew as <-. repeat split. assumption. }
  destruct Hp0 as (Hpq0 & Hnq0 & Hq0 & Hc0 & Hpos).
  assert (Hsplit : enqueue_all js p0
                   = (fst (enqueue_all (take k js) p0)
                      ++ fst (enqueue_all (drop k js) (snd (enqueue_all (take k js) p0))),
                      snd (enqueue_all (drop k js) (snd (enqueue_all (take k js) p0)))))
    by (rewrite <- (take_drop k js) at 1; apply enqueue_all_app).
  rewrite Hsplit. simpl fst. simpl snd. clear Hsplit.
  assert (Hk : (length (take k js) <= k)%nat) by (rewrite length_take; lia).
  destruct (enqueue_all_accepted (take k js) p0 Hinv0 ltac:(lia))
    as (Ha & Hpq & Hnq & Hq & Hinv1).
  rewrite Hpq0 in Hpq. rewrite Hnq0 in Hnq. simpl in Hpq, Hnq.
  pose proof (queue_invariant_int32 _ Hinv1) as Hint1.
  assert (Hcap1 : queueCapacity (snd (enqueue_all (take k js) p0)) = capacity).
  { clear - Hc0. revert p0 Hc0. induction (take k js) as [|j rest IH]; intros p0 Hc0; simpl.
    - assumption.
    - destruct (queueRoutineEnqueue j p0) as [[o p1] t] eqn:He.
      assert (Hc1 : queueCapacity p1 = capacity).
      { pose proof (enqueue_keeps_capacity j p0) as Hkeep. rewrite He in Hkeep.
        simpl in Hkeep. congruence. }
      specialize (IH p1 Hc1). destruct (enqueue_all rest p1). exact IH. }
  destruct (Nat.le_gt_cases (length js) k) as [Hshort|Hlong].
  - rewrite (drop_ge js k Hshort). simpl. rewrite !app_nil_r.
    split; [assumption|]. split; [assumption|]. split; [assumption|].
    unfold QueuedJobs, atomic_AddInt32. rewrite Z.add_0_r, (wrap_int32_id _ Hint1), Hq, Hq0.
    rewrite length_take. lia.
  - assert (Hfull : queuedJobs (snd (enqueue_all (take k js) p0))
                    = queueCapacity (snd (enqueue_all (take k js) p0))).
    { rewrite Hq, Hq0, Hcap1, length_take. lia. }
    rewrite (enqueue_all_rejected _ _ Hint1 Hfull). simpl.
    split; [rewrite Ha; reflexivity|]. split; [assumption|]. split; [assumption|].
    unfold QueuedJobs, atomic_AddInt32. rewrite Z.add_0_r, (wrap_int32_id _ Hint1), Hq, Hq0.
    rewrite length_take. lia.
Qed.

Lemma enqueue_all_saturates_witness :
  fst (enqueue_all [mkQueueJob (job "A") false 0; mkQueueJob (job "B") true 1]
         (new_pool 1 1))
  = [Some None; Some (Some at_capacity)].
Proof.
  destruct (enqueue_all_saturates 1 1 (new_pool 1 1)
              [mkQueueJob (job "A") false 0; mkQueueJob (job "B") true 1])
    as (Ha & _).
  - vm_compute. discriminate.
  - reflexivity.
  - exact Ha.
Defined.

(** ** A new pool *)


(** ** After [Shutdown] *)

(** X4: once [Shutdown] has returned, the queue routine and the job routines
    take no further step; the only step left is a pending [QueueJob], whose
    send finds [queueChannel] closed: it returns the error "send on closed
    channel" and leaves the pool as it is. *)
Theorem QueueJob_after_Shutdown (numberOfRoutines capacity : Z)
    (submitted : list (Jobber * bool)) (s0 s s' : System) (l : label) :
  capacity <= max_int32 ->
  New numberOfRoutines capacity submitted = Some s0 ->
  reachable s0 s ->
  Shutdown_returned s ->
  step l s = Some s' ->
  exists c jober priority,
    l = l_QueueJob c
    /\ calls s !! c = Some (call_send jober priority)
    /\ QueueJob c jober priority None (this s)
       = (Return (Some send_on_closed), this s,
          [EvClose (ch_queueResult c); EvRecovered "QueueJob" send_on_closed])
    /\ calls s' !! c = Some (call_returned (Some send_on_closed))
    /\ this s' = this s
    /\ jobs s' = jobs s
    /\ Shutdown_returned s'.
Proof.
  intros Hmax HNew Hreach [err Hret] Hstep.
  pose proof (New_invariant _ _ _ _ Hmax HNew) as Hinv0.
  pose proof (reachable_invariant _ _ Hinv0 Hreach) as Hinv.
  pose proof (inv_handshake s Hinv) as Hhs. unfold handshake in Hhs.
  rewrite Hret in Hhs. destruct err as [e|]; [contradiction|].
  destruct Hhs as (Hq & Hch & Hall).
  unfold channels_closed in Hch. injection Hch as H1 H2 H3 H4 H5.
  pose proof (all_returned _ Hall) as Hjobs.
  apply (step_transition _ _ _ Hinv) in Hstep.
  destruct Hstep;
    try congruence;
    try match goal with
        | H : jobs _ !! _ = Some _ |- _ => apply Hjobs in H; discriminate
        end.
  exists c, jober, priority. simpl.
  split; [reflexivity|]. split; [assumption|].
  split; [apply QueueJob_closed; assumption|].
  split; [apply list_lookup_insert_eq; eapply lookup_lt_Some; eassumption|].
  split; [reflexivity|]. split; [reflexivity|].
  exists None. assumption.
Qed.

Lemma QueueJob_after_Shutdown_witness :
  let s0 := system_of empty_pool [w_select] [call_send (job "A") false] in
  let s := state_after [l_Shutdown_call; l_Shutdown_send; l_Shutdown_recv;
                        l_job_shutdown 0; l_Shutdown_Wait] s0 in
  exists c jober priority,
    l_QueueJob 0 = l_QueueJob c
    /\ calls s !! c = Some (call_send jober priority)
    /\ calls (state_after [l_QueueJob 0] s) !! c
       = Some (call_returned (Some send_on_closed)).
Proof.
  destruct (QueueJob_after_Shutdown 1 1 [(job "A", false)]
              (system_of empty_pool [w_select] [call_send (job "A") false])
              (state_after [l_Shutdown_call; l_Shutdown_send; l_Shutdown_recv;
                            l_job_shutdown 0; l_Shutdown_Wait]
                 (system_of empty_pool [w_select] [call_send (job "A") false]))
              (state_after [l_QueueJob 0]
                 (state_after [l_Shutdown_call; l_Shutdown_send; l_Shutdown_recv;
                               l_job_shutdown 0; l_Shutdown_Wait]
                    (system_of empty_pool [w_select] [call_send (job "A") false])))
              (l_QueueJob 0))
    as (c & jober & priority & Hl & Hc & _ & Hc' & _).
  - vm_compute. discriminate.
  - reflexivity.
  - exists [l_Shutdown_call; l_Shutdown_send; l_Shutdown_recv;
            l_job_shutdown 0; l_Shutdown_Wait]. vm_compute. reflexivity.
  - exists None. vm_compute. reflexivity.
  - vm_compute. reflexivity.
  - exists c, jober, priority. split; [exact Hl|]. split; [exact Hc|exact Hc'].
Defined.

(** ** The counter of active job routines *)

Lemma sum_list_with_le {A : Type} (f g : A -> nat) (l : list A) :
  (forall x, f x <= g x)%nat -> (sum_list_with f l <= sum_list_with g l)%nat.
Proof.
  intros Hfg. induction l as [|x l IH]; simpl; [lia|]. specialize (Hfg x). lia.
Qed.

Lemma sum_list_with_zero {A : Type} (f : A -> nat) (l : list A) :
  (forall i x, l !! i = Some x -> f x = O) -> sum_list_with f l = O.
Proof.
  induction l as [|x l IH]; intros Hf; simpl; [reflexivity|].
  rewrite (Hf O x eq_refl), IH; [reflexivity|].
  intros i y Hi. apply (Hf (S i) y Hi).
Qed.

(** X5: in every state the pool can reach, [ActiveRoutines] reads a number
    between 0 and the number of job routines, at least the number of job
    routines that run a job, and 0 once every job routine has returned. *)
Theorem ActiveRoutines_bounded (numberOfRoutines capacity : Z)
    (submitted : list (Jobber * bool)) (s0 s : System) :
  capacity <= max_int32 ->
  numberOfRoutines <= max_int32 ->
  New numberOfRoutines capacity submitted = Some s0 ->
  reachable s0 s ->
  0 <= ActiveRoutines (this s) <= Z.max 0 numberOfRoutines
  /\ Z.of_nat (sum_list_with executing (jobs s)) <= ActiveRoutines (this s)
  /\ (jobRoutines_returned s -> ActiveRoutines (this s) = 0).
Proof.
  intros Hcap Hn HNew Hreach.
  destruct (reachable_active _ _ _ _ _ Hcap Hn HNew Hreach) as (Hcount & Hrange).
  split; [assumption|]. rewrite Hcount. split.
  - apply inj_le. apply sum_list_with_le. intros w. destruct w; simpl; lia.
  - intros Hret. rewrite sum_list_with_zero; [reflexivity|].
    intros i w Hi. rewrite (Hret i w Hi). reflexivity.
Qed.

Lemma ActiveRoutines_bounded_witness :
  let s0 := system_of empty_pool [w_select] [call_send (job "A") false] in
  let s := state_after [l_QueueJob 0; l_job_wake 0; l_job_dequeue 0] s0 in
  0 <= ActiveRoutines (this s) <= 1
  /\ Z.of_nat (sum_list_with executing (jobs s)) <= ActiveRoutines (this s).
Proof.
  destruct (ActiveRoutines_bounded 1 1 [(job "A", false)]
              (system_of empty_pool [w_select] [call_send (job "A") false])
              (state_after [l_QueueJob 0; l_job_wake 0; l_job_dequeue 0]
                 (system_of empty_pool [w_select] [call_send (job "A") false])))
    as (Hrange & Hexec & _).
  - vm_compute. discriminate.
  - vm_compute. discriminate.
  - reflexivity.
  - exists [l_QueueJob 0; l_job_wake 0; l_job_dequeue 0]. vm_compute. reflexivity.
  - split; [exact Hrange|exact Hexec].
Defined.

(** ** Every accepted job is queued or was started *)





(** ** The pool takes finitely many steps *)




(** ** [Shutdown] as one function *)

(** X8: a call of [Shutdown] on a pool whose [shutdownQueueChannel] is
    closed, as it is after a first [Shutdown], panics in its send; the
    panic is recovered and the call returns the error "send on closed
    channel", without closing a channel a second time and without waiting:
    the pool is as it was. *)
Theorem Shutdown_twice (ack : option string) (p : JobPool) :
  closed (shutdownQueueChannel p) = true ->
  Shutdown ack p
  = (Return (Some send_on_closed), p, [EvRecovered "Shutdown" send_on_closed]).
Proof.
  intros Hclosed.
  unfold Shutdown, catchPanic, bind, shutdownQueueChannel_send.
  rewrite Hclosed. reflexivity.
Qed.

Lemma Shutdown_twice_witness :
  Shutdown (Some "Down"%string)
    (set_shutdownQueueChannel (close_chan (shutdownQueueChannel empty_pool)) empty_pool)
  = (Return (Some send_on_closed),
     set_shutdownQueueChannel (close_chan (shutdownQueueChannel empty_pool)) empty_pool,
     [EvRecovered "Shutdown" send_on_closed]).
Proof.
  apply (Shutdown_twice (Some "Down"%string)
           (set_shutdownQueueChannel (close_chan (shutdownQueueChannel empty_pool))
              empty_pool)).
  reflexivity.
Defined.

(** X9: on a pool with its channels open, [Shutdown] sends "Shutdown" and
    parks until the queue routine answers; with the answer it closes
    [shutdownQueueChannel], [queueChannel], [dequeueChannel] and
    [shutdownJobChannel], in this order, and waits for the job routines;
    only when the wait group is at zero does it close [jobChannel] and
    return nil. *)
Theorem Shutdown_alone (p : JobPool) (down : string) :
  channels_closed p = (false, false, false, false, false) ->
  let closing :=
    [EvSend ch_shutdownQueueChannel (v_string "Shutdown");
     EvRecv ch_shutdownQueueChannel;
     EvClose ch_shutdownQueueChannel;
     EvClose ch_queueChannel;
     EvClose ch_dequeueChannel;
     EvClose ch_shutdownJobChannel] in
  let signalled :=
    set_shutdownJobChannel (close_chan (shutdownJobChannel p))
      (set_dequeueChannel (close_chan (dequeueChannel p))
         (set_queueChannel (close_chan (queueChannel p))
            (set_shutdownQueueChannel (close_chan (shutdownQueueChannel p)) p))) in
  Shutdown None p = (Parked, p, [EvSend ch_shutdownQueueChannel (v_string "Shutdown")])
  /\ (shutdownWaitGroup p <> 0 -> Shutdown (Some down) p = (Parked, signalled, closing))
  /\ (shutdownWaitGroup p = 0 ->
      Shutdown (Some down) p
      = (Return None, set_jobChannel (close_chan (jobChannel p)) signalled,
         closing ++ [EvWaitGroupWait; EvClose ch_jobChannel])
      /\ channels_closed (set_jobChannel (close_chan (jobChannel p)) signalled)
         = (true, true, true, true, true)).
Proof.
  intros Hch closing signalled. subst closing signalled.
  unfold channels_closed in Hch. injection Hch as H1 H2 H3 H4 H5.
  unfold Shutdown, catchPanic, bind, shutdownQueueChannel_send, recv_answer, park, emit, ret,
    close_shutdownQueueChannel, close_queueChannel, close_dequeueChannel,
    close_shutdownJobChannel, shutdownWaitGroup_Wait, close_jobChannel, bind, modify.
  destruct p as [pq nq c1 c2 c3 jc c5 wg q a capy]; simpl in *.
  repeat (progress (rewrite ?H1, ?H2, ?H3, ?H4; simpl)).
  split; [reflexivity|]. split.
  - intros Hwg. apply Z.eqb_neq in Hwg. rewrite Hwg. reflexivity.
  - intros ->. simpl. rewrite H5. simpl. split; reflexivity.
Qed.

Lemma Shutdown_alone_witness :
  Shutdown None empty_pool
  = (Parked, empty_pool, [EvSend ch_shutdownQueueChannel (v_string "Shutdown")]).
Proof.
  destruct (Shutdown_alone empty_pool "Down") as (Hparked & _).
  - reflexivity.
  - exact Hparked.
Defined.

(** ** The wait group *)

(** X10: in every state the pool can reach, the counter of
    [shutdownWaitGroup] is the number of job routines that have not
    returned; so the [Done] of a job routine that takes the shutdown case
    never panics on a negative counter, and [Wait] returns exactly when
    every job routine has returned. *)
Theorem WaitGroup_counts (numberOfRoutines capacity : Z)
    (submitted : list (Jobber * bool)) (s0 s : System) :
  capacity <= max_int32 ->
  New numberOfRoutines capacity submitted = Some s0 ->
  reachable s0 s ->
  shutdownWaitGroup (this s) = Z.of_nat (sum_list_with not_returned (jobs s))
  /\ 0 <= shutdownWaitGroup (this s) <= Z.max 0 numberOfRoutines
  /\ (forall i w,
        jobs s !! i = Some w -> w <> w_returned ->
        fst (fst (shutdownWaitGroup_Done (this s))) = Return tt)
  /\ (fst (fst (shutdownWaitGroup_Wait (this s))) = Return tt <-> jobRoutines_returned s).
Proof.
  intros Hmax HNew [schedule Hrun].
  pose proof (New_invariant _ _ _ _ Hmax HNew) as Hinv0.
  pose proof (run_invariant _ _ _ Hinv0 Hrun) as Hinv.
  pose proof (run_jobs_length _ _ _ Hinv0 Hrun) as Hlen.
  assert (Hlen0 : length (jobs s0) = Z.to_nat numberOfRoutines).
  { unfold New in HNew. destruct (New_JobPool numberOfRoutines capacity); [|discriminate].
    injection HNew as <-. simpl. apply length_replicate. }
  pose proof (inv_wg s Hinv) as Hwg.
  assert (Hle : (sum_list_with not_returned (jobs s) <= length (jobs s))%nat).
  { apply sum_le_length. intros w. destruct w; simpl; lia. }
  split; [assumption|]. split; [lia|]. split.
  - intros i w Hi Hw.
    pose proof (sum_lookup_le not_returned _ _ _ Hi) as Hone.
    assert (not_returned w = 1%nat) by (destruct w; simpl; congruence).
    unfold shutdownWaitGroup_Done.
    destruct (shutdownWaitGroup (this s) - 1 <? 0) eqn:Hneg; [|reflexivity].
    apply Z.ltb_lt in Hneg. lia.
  - unfold shutdownWaitGroup_Wait. split.
    + destruct (shutdownWaitGroup (this s) =? 0) eqn:Hz; [|discriminate].
      apply Z.eqb_eq in Hz. intros _. unfold jobRoutines_returned.
      apply all_returned. lia.
    + intros Hret.
      assert (Hzero : sum_list_with not_returned (jobs s) = O).
      { apply sum_list_with_zero. intros i w Hi. rewrite (Hret i w Hi). reflexivity. }
      rewrite Hwg, Hzero. reflexivity.
Qed.

Lemma WaitGroup_counts_witness :
  let s0 := system_of empty_pool [w_select] [call_send (job "A") false] in
  let s := state_after [l_Shutdown_call; l_Shutdown_send; l_Shutdown_recv;
                        l_job_shutdown 0] s0 in
  shutdownWaitGroup (this s) = 0
  /\ (fst (fst (shutdownWaitGroup_Wait (this s))) = Return tt <-> jobRoutines_returned s).
Proof.
  destruct (WaitGroup_counts 1 1 [(job "A", false)]
              (system_of empty_pool [w_select] [call_send (job "A") false])
              (state_after [l_Shutdown_call; l_Shutdown_send; l_Shutdown_recv;
                            l_job_shutdown 0]
                 (system_of empty_pool [w_select] [call_send (job "A") false])))
    as (Hwg & _ & _ & Hwait).
  - vm_compute. discriminate.
  - reflexivity.
  - exists [l_Shutdown_call; l_Shutdown_send; l_Shutdown_recv; l_job_shutdown 0].
    vm_compute. reflexivity.
  - split; [exact Hwg|exact Hwait].
Defined.

(** ** A wake-up taken after the channels are closed *)

(** X11: a job routine that takes a wake-up when [dequeueChannel] is closed
    gets the error "send on closed channel" from [dequeueJob], with no job;
    [doJobSafely] logs it and returns without calling [RunJob], and
    [activeRoutines] is back at its value. *)
Theorem doJobSafely_after_close (i : nat) (answer : option queueJob) (p : JobPool) :
  closed (dequeueChannel p) = true ->
  int32 (activeRoutines p) ->
  JobPool_dequeueJob i answer p
  = (Return (None, Some send_on_closed), p,
     [EvClose (ch_dequeueResult i); EvRecovered "dequeueJob" send_on_closed])
  /\ doJobSafely i answer p
     = (Return tt, p,
        [EvAddInt32 c_activeRoutines 1;
         EvClose (ch_dequeueResult i);
         EvRecovered "dequeueJob" send_on_closed;
         EvAddInt32 c_activeRoutines (-1)])
  /\ position is_RunJob (snd (doJobSafely i answer p)) = None.
Proof.
  intros Hclosed Hint.
  assert (Hdo : doJobSafely i answer p
                = (Return tt, p,
                   [EvAddInt32 c_activeRoutines 1;
                    EvClose (ch_dequeueResult i);
                    EvRecovered "dequeueJob" send_on_closed;
                    EvAddInt32 c_activeRoutines (-1)])).
  { unfold doJobSafely, doJobSafely_deferred, catchPanic, defer, bind,
      AddInt32_activeRoutines, JobPool_dequeueJob, catchPanic, defer, bind,
      dequeueChannel_send, recv_answer, doJobSafely_run, emit, ret, bind, modify, get.
    assert (Hback : atomic_AddInt32 (atomic_AddInt32 (activeRoutines p) 1) (-1)
                    = activeRoutines p).
    { unfold atomic_AddInt32. rewrite wrap_int32_add.
      replace (activeRoutines p + 1 + -1) with (activeRoutines p) by lia.
      apply wrap_int32_id. assumption. }
    destruct p as [pq nq c1 c2 c3 jc c5 wg q a capy]; simpl in *.
    rewrite Hclosed. simpl. rewrite Hback. reflexivity. }
  split; [apply dequeueJob_closed; assumption|].
  split; [exact Hdo|]. rewrite Hdo. reflexivity.
Qed.

Lemma doJobSafely_after_close_witness :
  doJobSafely 0 None (set_dequeueChannel (close_chan (dequeueChannel full_pool)) full_pool)
  = (Return tt, set_dequeueChannel (close_chan (dequeueChannel full_pool)) full_pool,
     [EvAddInt32 c_activeRoutines 1;
      EvClose (ch_dequeueResult 0);
      EvRecovered "dequeueJob" send_on_closed;
      EvAddInt32 c_activeRoutines (-1)]).
Proof.
  destruct (doJobSafely_after_close 0 None
              (set_dequeueChannel (close_chan (dequeueChannel full_pool)) full_pool))
    as (_ & Hdo & _).
  - reflexivity.
  - vm_compute. split; discriminate.
  - exact Hdo.
Defined.

(** ** The answers of [QueueJob] *)

(** X12: in every state the pool can reach, a pending call of [QueueJob] is
    served in one step and returns: nil when the job was queued, the error
    "Job Pool At Capacity" when the pool was full, and the error "send on
    closed channel" once [Shutdown] has closed [queueChannel]; in the last
    two cases the pool is left as it was.  The call waits only while
    [Shutdown] is between the answer of the queue routine and the closing
    of the channels. *)
Theorem QueueJob_returns (numberOfRoutines capacity : Z)
    (submitted : list (Jobber * bool)) (s0 s : System)
    (c : nat) (jober : Jobber) (priority : bool) :
  capacity <= max_int32 ->
  New numberOfRoutines capacity submitted = Some s0 ->
  reachable s0 s ->
  calls s !! c = Some (call_send jober priority) ->
  (shutdown s = s_recv -> step (l_QueueJob c) s = None)
  /\ (shutdown s <> s_recv ->
      exists s' err,
        step (l_QueueJob c) s = Some s'
        /\ calls s' !! c = Some (call_returned err)
        /\ ((err = None
             /\ closed (queueChannel (this s)) = false
             /\ QueuedJobs (this s) < capacity
             /\ QueuedJobs (this s') = QueuedJobs (this s) + 1)
            \/ (err = Some at_capacity
                /\ closed (queueChannel (this s)) = false
                /\ QueuedJobs (this s) = capacity
                /\ this s' = this s)
            \/ (err = Some send_on_closed
                /\ closed (queueChannel (this s)) = true
                /\ this s' = this s))).
Proof.
  intros Hmax HNew Hreach Hc.
  pose proof (New_invariant _ _ _ _ Hmax HNew) as Hinv0.
  pose proof (reachable_invariant _ _ Hinv0 Hreach) as Hinv.
  assert (Hcapacity : queueCapacity (this s) = capacity).
  { destruct Hreach as [schedule Hrun]. rewrite (run_capacity _ _ _ Hinv0 Hrun).
    unfold New, New_JobPool in HNew. destruct (capacity <? 0); [discriminate|].
    injection HNew as <-. reflexivity. }
  pose proof (inv_queue s Hinv) as Hqi.
  pose proof (queue_invariant_int32 _ Hqi) as Hint.
  destruct Hqi as (Hlen & Hb & _).
  assert (Hread : QueuedJobs (this s) = queuedJobs (this s)).
  { unfold QueuedJobs, atomic_AddInt32. rewrite Z.add_0_r. apply wrap_int32_id. assumption. }
  assert (Hlt : (c < length (calls s))%nat) by (eapply lookup_lt_Some; eassumption).
  destruct (handshake_cases s (inv_handshake s Hinv))
    as [(Hq & Hch & Hsh)|[(Hq & Hch & Hsh)|[(Hq & Hch & Hsh)|(Hq & Hch & _ & Hsh)]]];
    unfold channels_closed in Hch; injection Hch as H1 H2 H3 H4 H5.
  - split; [intros Hrecv; destruct Hsh; congruence|]. intros _.
    destruct (Z.eq_dec (queuedJobs (this s)) (queueCapacity (this s))) as [Hfull|Hne].
    + eexists _, _. split.
      * apply (transition_step _ _ _ Hinv). eapply t_QueueJob_full; eassumption.
      * simpl. split; [apply list_lookup_insert_eq; assumption|].
        right. left. repeat split; try assumption. lia.
    + assert (Hroom : queuedJobs (this s) < queueCapacity (this s)) by lia.
      eexists _, _. split.
      * apply (transition_step _ _ _ Hinv). eapply t_QueueJob_accepted; eassumption.
      * simpl. split; [apply list_lookup_insert_eq; assumption|].
        left. repeat split; try assumption; try lia.
        rewrite Hread. unfold QueuedJobs, atomic_AddInt32. simpl.
        rewrite Z.add_0_r. apply wrap_int32_id.
        unfold int32, min_int32, max_int32 in *. lia.
  - split; [|congruence]. intros _. simpl. unfold step_QueueJob.
    rewrite Hc, H2, Hq. reflexivity.
  - split; [congruence|]. intros _. eexists _, _. split.
    + apply (transition_step _ _ _ Hinv). eapply t_QueueJob_closed; eassumption.
    + simpl. split; [apply list_lookup_insert_eq; assumption|].
      right. right. repeat split. assumption.
  - split; [congruence|]. intros _. eexists _, _. split.
    + apply (transition_step _ _ _ Hinv). eapply t_QueueJob_closed; eassumption.
    + simpl. split; [apply list_lookup_insert_eq; assumption|].
      right. right. repeat split. assumption.
Qed.

Lemma QueueJob_returns_witness :
  let s := system_of empty_pool [w_select] [call_send (job "A") false] in
  exists s' err,
    step (l_QueueJob 0) s = Some s' /\ calls s' !! O = Some (call_returned err).
Proof.
  destruct (QueueJob_returns 1 1 [(job "A", false)]
              (system_of empty_pool [w_select] [call_send (job "A") false])
              (system_of empty_pool [w_select] [call_send (job "A") false])
              0 (job "A") false)
    as (_ & Hserved).
  - vm_compute. discriminate.
  - reflexivity.
  - exists []. reflexivity.
  - reflexivity.
  - destruct Hserved as (s' & err & Hstep & Hcall & _); [discriminate|].
    exists s', err. split; [exact Hstep|exact Hcall].
Defined.

(** ** Jobs left in the queues *)




